(** * Centripetal Catmull-Rom path smoothing: [src/main.cpp]

    A shallow embedding of [getMagnitude], [distance], [calcCoefficients] and
    [generateSmoothPath].

    The program computes on C++ [double]s.  Its text is embedded once, over an
    interface [Arith] of the arithmetic it uses, and read in two ways:

    - [Binary64]: IEEE-754 binary64 with round-to-nearest-even, every
      operation rounded on its own (no fused multiply-add), which is what a
      [double] is on x86-64 and AArch64.  The operations are Rocq's primitive
      floats.  [pow] comes from the C library and is not part of the
      repository: it is a parameter, constrained where needed by the special
      values that C Annex F.10.4.4 fixes.
    - [Exact]: the real numbers.  The program does not run on them; they are
      used once, to say what [distance] computes when nothing is rounded.

    [std::vector::at] and [std::deque::at] throw [std::out_of_range]; a run
    either returns, throws, or (for the loop controlled by a [double]) is cut
    off by the fuel of the model. *)

From Stdlib Require Import List ZArith Lia Bool Arith.
From Stdlib Require Import Reals Lra.
From Stdlib Require Import Floats.
Import ListNotations.

#[local] Set Warnings "-inexact-float".

(** ** Outcomes of a run *)

Inductive exn : Type :=
| out_of_range.

Inductive result (A : Type) : Type :=
| Ok (x : A)
| Throw (e : exn)
| OutOfFuel.

Arguments Ok {A} x.
Arguments Throw {A} e.
Arguments OutOfFuel {A}.

Definition bind {A B : Type} (m : result A) (k : A -> result B) : result B :=
  match m with
  | Ok x => k x
  | Throw e => Throw e
  | OutOfFuel => OutOfFuel
  end.

Declare Scope result_scope.
Delimit Scope result_scope with result.
Notation "x <- m ;; k" := (bind m (fun x => k))
  (at level 61, m at next level, right associativity) : result_scope.
Open Scope result_scope.

(** [v.at(i)] of [std::vector] and [std::deque]. *)
Definition at_ {A : Type} (v : list A) (i : nat) : result A :=
  match nth_error v i with
  | Some x => Ok x
  | None => Throw out_of_range
  end.

(** ** The arithmetic the program uses *)

Class Arith (F : Type) : Type := {
  lit : Z -> F;            (* an integer literal converted to double *)
  tenth : F;               (* the literal 0.1 *)
  three_quarters : F;      (* the literal 0.75 *)
  fadd : F -> F -> F;
  fsub : F -> F -> F;
  fmul : F -> F -> F;
  fdiv : F -> F -> F;
  fsqrt : F -> F;          (* sqrt of <cmath> *)
  fpow : F -> F -> F;      (* pow of <cmath> *)
  fleb : F -> F -> bool    (* <= on double *)
}.

Declare Scope arith_scope.
Delimit Scope arith_scope with A.
Infix "+" := fadd : arith_scope.
Infix "-" := fsub : arith_scope.
Infix "*" := fmul : arith_scope.
Infix "/" := fdiv : arith_scope.
Infix "<=?" := fleb : arith_scope.

(** ** The program *)

Section Program.

Context {F : Type} {AF : Arith F}.

Local Open Scope arith_scope.

(** A point is a [std::vector<double>] holding [x, y]. *)
Definition Point : Type := list F.

(** [struct Path]: a deque of points. *)
Record Path : Type := mkPath { points : list Point }.

(** [getPoint(double t)] is called with integers only, which the conversion to
    [double] and back leaves as they are. *)
Definition getPoint (path : Path) (t : nat) : result Point :=
  at_ (points path) t.

Definition addPoint (path : Path) (point : Point) : Path :=
  mkPath (points path ++ [point]).

(** [struct Segment]: the coefficients of one cubic. *)
Record Segment : Type := mkSegment { a : Point; b : Point; c : Point; d : Point }.

(** Lines 37-39. *)
Definition getMagnitude (point : Point) : result F :=
  x <- at_ point 0 ;;
  y <- at_ point 1 ;;
  Ok (fsqrt (fpow x (lit 2) + fpow y (lit 2))).

(** Lines 42-44.  The second component is [p1.at(1) - p1.at(1)], as the source
    has it. *)
Definition distance (p0 p1 : Point) : result F :=
  p1x <- at_ p1 0 ;;
  p0x <- at_ p0 0 ;;
  p1y <- at_ p1 1 ;;
  p1y' <- at_ p1 1 ;;
  getMagnitude [p1x - p0x; p1y - p1y'].

(** Lines 47-93.  [m1] and [m2] are local two-element vectors, so [m1.at(0)]
    is [m1x] and so on. *)
Definition calcCoefficients (alpha tension : F) (p0 p1 p2 p3 : Point)
  : result Segment :=
  d01 <- distance p0 p1 ;;
  d12 <- distance p1 p2 ;;
  d23 <- distance p2 p3 ;;
  let t01 := fpow d01 alpha in
  let t12 := fpow d12 alpha in
  let t23 := fpow d23 alpha in
  p0x <- at_ p0 0 ;; p1x <- at_ p1 0 ;; p2x <- at_ p2 0 ;; p3x <- at_ p3 0 ;;
  p0y <- at_ p0 1 ;; p1y <- at_ p1 1 ;; p2y <- at_ p2 1 ;; p3y <- at_ p3 1 ;;
  let m1x := (lit 1 - tension) *
    (p2x - p1x + t12 * ((p1x - p0x) / t01 - (p2x - p0x) / (t01 + t12))) in
  let m1y := (lit 1 - tension) *
    (p2y - p1y + t12 * ((p1y - p0y) / t01 - (p2y - p0y) / (t01 + t12))) in
  let m2x := (lit 1 - tension) *
    (p2x - p1x + t12 * ((p3x - p2x) / t23 - (p3x - p1x) / (t12 + t23))) in
  let m2y := (lit 1 - tension) *
    (p2y - p1y + t12 * ((p3y - p2y) / t23 - (p3y - p1y) / (t12 + t23))) in
  Ok {| a := [ lit 2 * (p1x - p2x) + m1x + m2x ;
               lit 2 * (p1y - p2y) + m1y + m2y ];
        b := [ lit (-3) * (p1x - p2x) - m1x - m1x - m2x ;
               lit (-3) * (p1y - p2y) - m1y - m1y - m2y ];
        c := [ m1x ; m1y ];
        d := [ p1x ; p1y ] |}.

(** Lines 104-121: the two control points injected at the ends.  The sizes are
    those of the deque after [push_front]; [getPoint(1)] has thrown by then
    when the path has fewer than two points, so [size()-2] does not wrap. *)
Definition injectControls (path : Path) : result Path :=
  firstPoint <- getPoint path 0 ;;
  second <- getPoint path 1 ;;
  sx <- at_ second 0 ;; fx <- at_ firstPoint 0 ;;
  let diff_x1 := sx - fx in
  sy <- at_ second 1 ;; fy <- at_ firstPoint 1 ;;
  let diff_y1 := sy - fy in
  fx' <- at_ firstPoint 0 ;; fy' <- at_ firstPoint 1 ;;
  let startingControl := [fx' - diff_x1; fy' - diff_y1] in
  let path := mkPath (startingControl :: points path) in
  lastPoint <- getPoint path (length (points path) - 1) ;;
  lx <- at_ lastPoint 0 ;;
  prev <- getPoint path (length (points path) - 2) ;;
  px <- at_ prev 0 ;;
  let diff_x2 := lx - px in
  ly <- at_ lastPoint 1 ;;
  prev' <- getPoint path (length (points path) - 2) ;;
  py <- at_ prev' 1 ;;
  let diff_y2 := ly - py in
  lx' <- at_ lastPoint 0 ;; ly' <- at_ lastPoint 1 ;;
  let finalControl := [lx' + diff_x2; ly' + diff_y2] in
  Ok (mkPath (points path ++ [finalControl])).

(** Lines 127-133: one segment per window of four consecutive points, for the
    indices [i] the loop visits.  The loop is entered with at least four
    points in the deque, so [size()-3] does not wrap. *)
Fixpoint buildSegments (path : Path) (indices : list nat) (segments : list Segment)
  : result (list Segment) :=
  match indices with
  | [] => Ok segments
  | i :: indices' =>
      p0 <- getPoint path i ;;
      p1 <- getPoint path (i + 1) ;;
      p2 <- getPoint path (i + 2) ;;
      p3 <- getPoint path (i + 3) ;;
      segment <- calcCoefficients three_quarters (lit 0) p0 p1 p2 p3 ;;
      buildSegments path indices' (segments ++ [segment])
  end.

(** Lines 162-164: the cubic of [currentSegment] at [t], one coordinate. *)
Definition cubicAt (currentSegment : Segment) (k : nat) (t : F) : result F :=
  ak <- at_ (a currentSegment) k ;;
  bk <- at_ (b currentSegment) k ;;
  ck <- at_ (c currentSegment) k ;;
  dk <- at_ (d currentSegment) k ;;
  Ok (ak * fpow t (lit 3) + bk * fpow t (lit 2) + ck * t + dk).

(** Lines 159-168: [for (double t = 0.1; t <= 1; t += 0.1)], entered at [t]. *)
Fixpoint sampleSegment (fuel : nat) (currentSegment : Segment) (t : F)
  (smoothedPath : Path) : result Path :=
  match fuel with
  | O => OutOfFuel
  | S fuel' =>
      if t <=? lit 1 then
        xVal <- cubicAt currentSegment 0 t ;;
        yVal <- cubicAt currentSegment 1 t ;;
        sampleSegment fuel' currentSegment (t + tenth)
          (addPoint smoothedPath [xVal; yVal])
      else Ok smoothedPath
  end.

(** Lines 139-171: the loop over [z], with [rest] the segments from [z] on. *)
Fixpoint sampleSegments (fuel : nat) (segments : list Segment) (z : nat)
  (rest : list Segment) (smoothedPath : Path) : result Path :=
  match rest with
  | [] => Ok smoothedPath
  | currentSegment :: rest' =>
      smoothedPath <-
        (if Nat.eqb z 0 then
           first <- at_ segments 0 ;;
           xVal <- at_ (d first) 0 ;;
           first' <- at_ segments 0 ;;
           yVal <- at_ (d first') 1 ;;
           Ok (addPoint smoothedPath [xVal; yVal])
         else Ok smoothedPath) ;;
      smoothedPath <- sampleSegment fuel currentSegment tenth smoothedPath ;;
      sampleSegments fuel segments (S z) rest' smoothedPath
  end.

(** Lines 97-175.  [fuel] bounds the iterations of each [t] loop. *)
Definition generateSmoothPath (fuel : nat) (path : Path) : result Path :=
  path <- injectControls path ;;
  segments <- buildSegments path (seq 0 (length (points path) - 3)) [] ;;
  sampleSegments fuel segments 0 segments (mkPath []).

End Program.

Arguments Point F : clear implicits.
Arguments Path F : clear implicits.
Arguments Segment F : clear implicits.

(** ** Binary64 arithmetic *)

(** An integer literal as a [double]; exact for the literals of the source. *)
Definition lit64 (z : Z) : float :=
  match z with
  | Z0 => 0%float
  | Zpos p => PrimFloat.of_uint63 (Uint63.of_pos p)
  | Zneg p => PrimFloat.opp (PrimFloat.of_uint63 (Uint63.of_pos p))
  end.

Definition Binary64 (pow : float -> float -> float) : Arith float := {|
  lit := lit64;
  tenth := 0.1%float;
  three_quarters := 0.75%float;
  fadd := PrimFloat.add;
  fsub := PrimFloat.sub;
  fmul := PrimFloat.mul;
  fdiv := PrimFloat.div;
  fsqrt := PrimFloat.sqrt;
  fpow := pow;
  fleb := PrimFloat.leb
|}.

(** The values of [pow] that C Annex F.10.4.4 fixes and the proofs below use:
    [pow(+1, y)] is 1 for every [y], and [pow(+0, y)] is +0 for every
    [y > 0]. *)
Record AnnexF (pow : float -> float -> float) : Prop := {
  pow_one_l : forall y, pow 1%float y = 1%float;
  pow_zero_pos : forall y, PrimFloat.ltb 0 y = true -> pow 0%float y = 0%float
}.

(** A function with these values, NaN where Annex F fixes nothing that is
    needed here; it shows the record is inhabited. *)
Definition pow_special (x y : float) : float :=
  if PrimFloat.eqb x 1 then 1%float
  else if PrimFloat.eqb x 0 && PrimFloat.ltb 0 y then 0%float
  else nan.

(** ** Exact arithmetic *)

(** [pow] on the reals: an integer power for an integral exponent,
    [exp (y * ln x)] for a positive base, and 0 for base 0 with a positive
    exponent.  Where C's [pow] has no real value the choice is immaterial. *)
Definition Rpow (x y : R) : R :=
  if Req_dec_T y (IZR (Int_part y)) then powerRZ x (Int_part y)
  else if Rlt_dec 0 x then Rpower x y
  else 0%R.

#[global] Instance Exact : Arith R := {|
  lit := IZR;
  tenth := (1 / 10)%R;
  three_quarters := (3 / 4)%R;
  fadd := Rplus;
  fsub := Rminus;
  fmul := Rmult;
  fdiv := Rdiv;
  fsqrt := R_sqrt.sqrt;
  fpow := Rpow;
  fleb := fun x y => if Rle_dec x y then true else false
|}.

(** ** Notions in which the claims are stated *)

Section Notions.

Context {F : Type} {AF : Arith F}.
Local Open Scope arith_scope.

Definition coord (p : Point F) (k : nat) : F := nth k p (lit 0).

(** [w[0] - (w[1] - w[0])], by coordinate. *)
Definition startControl (w : list (Point F)) : Point F :=
  let w0 := nth 0 w [] in
  let w1 := nth 1 w [] in
  [ coord w0 0 - (coord w1 0 - coord w0 0) ;
    coord w0 1 - (coord w1 1 - coord w0 1) ].

(** [w[N-1] + (w[N-1] - w[N-2])], by coordinate. *)
Definition finalControl (w : list (Point F)) : Point F :=
  let wl := nth (length w - 1) w [] in
  let wp := nth (length w - 2) w [] in
  [ coord wl 0 + (coord wl 0 - coord wp 0) ;
    coord wl 1 + (coord wl 1 - coord wp 1) ].

Definition extrapolated (w : list (Point F)) : list (Point F) :=
  startControl w :: w ++ [finalControl w].

(** A point with exactly the two coordinates [x, y]. *)
Definition is2D (p : Point F) : Prop := length p = 2.

(** The values of [t] at which the loop of line 159 runs its body when entered
    at [t]; [None] when the fuel does not reach the exit. *)
Fixpoint loopParams (fuel : nat) (t : F) : option (list F) :=
  match fuel with
  | O => None
  | S fuel' =>
      if t <=? lit 1 then option_map (cons t) (loopParams fuel' (t + tenth))
      else Some []
  end.

(** The cubic of a segment at [t], as lines 162-164 compute it. *)
Definition cubic (s : Segment F) (k : nat) (t : F) : F :=
  coord (a s) k * fpow t (lit 3) + coord (b s) k * fpow t (lit 2)
  + coord (c s) k * t + coord (d s) k.

Definition samplePoint (s : Segment F) (t : F) : Point F :=
  [cubic s 0 t; cubic s 1 t].

Definition wfSegment (s : Segment F) : Prop :=
  is2D (a s) /\ is2D (b s) /\ is2D (c s) /\ is2D (d s).

(** The segment of the window of four control points that starts at [i]. *)
Definition window (ctrl : list (Point F)) (i : nat) (s : Segment F) : Prop :=
  calcCoefficients three_quarters (lit 0) (nth i ctrl []) (nth (i + 1) ctrl [])
    (nth (i + 2) ctrl []) (nth (i + 3) ctrl []) = Ok s.

(** All the samples of a list of segments, ten-at-a-time in the order of the
    segments, for the parameter values [ts]. *)
Definition samples (ts : list F) (segs : list (Segment F)) : list (Point F) :=
  flat_map (fun s => map (samplePoint s) ts) segs.

End Notions.

(** ** Constants *)

(** The ten values of [t] that [for (double t = 0.1; t <= 1; t += 0.1)] visits
    in binary64: the sum drifts, and the tenth value is one unit in the last
    place below 1. *)
Definition ts64 : list float :=
  [ 0.1; 0.2; 0.30000000000000004; 0.4; 0.5; 0.6; 0.7; 0.7999999999999999;
    0.8999999999999999; 0.9999999999999999 ]%float.

(** Each value is below the next one, by [<] on [double]. *)
Fixpoint increasing64 (l : list float) : bool :=
  match l with
  | x :: (y :: _) as l' => PrimFloat.ltb x y && increasing64 l'
  | _ => true
  end.

(** The waypoints of [main] (line 184). *)
Definition mainPath : Path float :=
  mkPath [ [10; 7]; [15; 10]; [20; 13]; [25; 12]; [30; 7]; [35; 8]; [40; 10] ]%float.


(** ** Notions for the properties beyond the claims *)

(** [f] applied to the value that a run returns. *)
Definition rmap {A B : Type} (f : A -> B) (r : result A) : result B :=
  match r with
  | Ok x => Ok (f x)
  | Throw e => Throw e
  | OutOfFuel => OutOfFuel
  end.

(** A point with at least the two coordinates that the program reads. *)
Definition has2 {F : Type} (p : Point F) : Prop := 2 <= length p.

(** The two coordinates that the program reads, when they are there. *)
Definition xy {F : Type} (p : Point F) : Point F := firstn 2 p.

(** The path with every point cut down to its [x, y]. *)
Definition xyPath {F : Type} (path : Path F) : Path F :=
  mkPath (map xy (points path)).

(** A run that returns or throws. *)
Definition halts {A : Type} (r : result A) : Prop := r <> OutOfFuel.

(** ** Facts that hold in any arithmetic *)

Section Generic.

Context {F : Type} {AF : Arith F}.

Lemma is2D_inv (p : Point F) : is2D p -> exists x y, p = [x; y].
Proof.
  unfold is2D. destruct p as [|x [|y [|z p]]]; simpl; try discriminate.
  intros _. now exists x, y.
Qed.

Lemma at_nth {A : Type} (l : list A) (i : nat) (dflt : A) :
  i < length l -> at_ l i = Ok (nth i l dflt).
Proof.
  intros Hi. unfold at_. now rewrite (nth_error_nth' l dflt Hi).
Qed.

Lemma at_cons {A : Type} (x : A) (l : list A) (i : nat) :
  at_ (x :: l) (S i) = at_ l i.
Proof. reflexivity. Qed.

Lemma is2D_inv_nth (w : list (Point F)) (i : nat) :
  Forall is2D w -> i < length w -> is2D (nth i w []).
Proof.
  intros Hw Hi. rewrite Forall_forall in Hw. apply Hw, nth_In, Hi.
Qed.

Lemma is2D_nth (w : list (Point F)) (i : nat) :
  Forall is2D w -> i < length w -> exists x y, nth i w [] = [x; y].
Proof.
  intros Hw Hi. now apply is2D_inv, is2D_inv_nth.
Qed.

Lemma injectControls_ok (path : Path F) :
  2 <= length (points path) -> Forall is2D (points path) ->
  injectControls path = Ok (mkPath (extrapolated (points path))).
Proof.
  destruct path as [w]; simpl points. intros Hn Hw.
  destruct (is2D_nth w 0 Hw) as (x0 & y0 & E0); [lia|].
  destruct (is2D_nth w 1 Hw) as (x1 & y1 & E1); [lia|].
  destruct (is2D_nth w (length w - 1) Hw) as (xl & yl & El); [lia|].
  destruct (is2D_nth w (length w - 2) Hw) as (xp & yp & Ep); [lia|].
  unfold injectControls, getPoint; simpl points.
  rewrite (at_nth w 0 []), (at_nth w 1 []) by lia.
  rewrite E0, E1. simpl bind.
  replace (Nat.sub (length w) 1) with (S (Nat.sub (length w) 2)) by lia.
  replace (Nat.sub (length w) 0) with (S (Nat.sub (length w) 1)) by lia.
  rewrite !at_cons.
  rewrite (at_nth w (length w - 1) []), (at_nth w (length w - 2) []) by lia.
  rewrite El, Ep. simpl bind.
  unfold extrapolated, startControl, finalControl.
  rewrite E0, E1, El, Ep. reflexivity.
Qed.

Lemma generateSmoothPath_short (fuel : nat) (path : Path F) :
  length (points path) < 2 -> generateSmoothPath fuel path = Throw out_of_range.
Proof.
  destruct path as [w]; simpl points. intros Hn.
  unfold generateSmoothPath, injectControls, getPoint; simpl points.
  destruct w as [|w0 [|w1 w]]; simpl in Hn; try lia; reflexivity.
Qed.

Lemma calcCoefficients_2D (alpha tension : F) (p0 p1 p2 p3 : Point F) :
  is2D p0 -> is2D p1 -> is2D p2 -> is2D p3 ->
  exists s, calcCoefficients alpha tension p0 p1 p2 p3 = Ok s
            /\ wfSegment s /\ d s = p1.
Proof.
  intros H0 H1 H2 H3.
  destruct (is2D_inv _ H0) as (x0 & y0 & ->), (is2D_inv _ H1) as (x1 & y1 & ->),
    (is2D_inv _ H2) as (x2 & y2 & ->), (is2D_inv _ H3) as (x3 & y3 & ->).
  eexists. split; [reflexivity|]. now repeat split.
Qed.

Lemma window_2D (ctrl : list (Point F)) (i : nat) :
  Forall is2D ctrl -> i + 3 < length ctrl ->
  exists s, window ctrl i s /\ wfSegment s /\ d s = nth (i + 1) ctrl [].
Proof.
  intros Hc Hi. unfold window.
  apply calcCoefficients_2D; apply is2D_inv_nth; auto; lia.
Qed.

Lemma buildSegments_ok (ctrl : list (Point F)) (indices : list nat)
  (segments : list (Segment F)) :
  Forall is2D ctrl -> Forall (fun i => i + 3 < length ctrl) indices ->
  exists segs, buildSegments (mkPath ctrl) indices segments = Ok (segments ++ segs)
               /\ Forall2 (window ctrl) indices segs.
Proof.
  intros Hc. revert segments.
  induction indices as [|i indices IH]; intros segments Hi.
  - exists []. rewrite app_nil_r. now split.
  - inversion Hi as [|? ? Hlt Hi']; subst.
    destruct (window_2D ctrl i Hc Hlt) as (s & Hs & _).
    destruct (IH (segments ++ [s]) Hi') as (segs & Hb & Hf).
    exists (s :: segs). split; [|now constructor].
    cbn [buildSegments]. unfold getPoint; simpl points.
    rewrite (at_nth ctrl i []), (at_nth ctrl (i + 1) []),
      (at_nth ctrl (i + 2) []), (at_nth ctrl (i + 3) []) by lia.
    cbn [bind]. unfold window in Hs. rewrite Hs. cbn [bind].
    rewrite Hb, <- app_assoc. reflexivity.
Qed.

Lemma cubicAt_ok (s : Segment F) (k : nat) (t : F) :
  wfSegment s -> k < 2 -> cubicAt s k t = Ok (cubic s k t).
Proof.
  intros (Ha & Hb & Hc & Hd) Hk. unfold cubicAt, cubic, coord.
  rewrite (at_nth (a s) k (lit 0)), (at_nth (b s) k (lit 0)),
    (at_nth (c s) k (lit 0)), (at_nth (d s) k (lit 0))
    by (unfold is2D in *; lia).
  reflexivity.
Qed.

Lemma sampleSegment_ok (fuel : nat) (s : Segment F) :
  wfSegment s ->
  forall (t : F) (ts : list F) (smoothedPath : Path F),
  loopParams fuel t = Some ts ->
  sampleSegment fuel s t smoothedPath
  = Ok (mkPath (points smoothedPath ++ map (samplePoint s) ts)).
Proof.
  intros Hs. induction fuel as [|fuel IH]; intros t ts sp Hts;
    [discriminate|].
  cbn [loopParams sampleSegment] in *.
  destruct (fleb t (lit 1)).
  - destruct (loopParams fuel (fadd t tenth)) as [ts'|] eqn:E; [|discriminate].
    injection Hts as <-.
    rewrite !cubicAt_ok by (auto; lia). cbn [bind].
    rewrite (IH _ _ _ E). unfold addPoint. cbn [points map].
    rewrite <- app_assoc. reflexivity.
  - injection Hts as <-. destruct sp. cbn [points map].
    now rewrite app_nil_r.
Qed.

Lemma sampleSegments_later (fuel : nat) (ts : list F)
  (segments : list (Segment F)) :
  loopParams fuel tenth = Some ts ->
  forall (rest : list (Segment F)) (z : nat) (smoothedPath : Path F),
  Forall wfSegment rest ->
  sampleSegments fuel segments (S z) rest smoothedPath
  = Ok (mkPath (points smoothedPath ++ samples ts rest)).
Proof.
  intros Hts. induction rest as [|s rest IH]; intros z sp Hr.
  - destruct sp. cbn [sampleSegments points samples flat_map].
    now rewrite app_nil_r.
  - inversion Hr as [|? ? Hs Hr']; subst.
    cbn [sampleSegments Nat.eqb bind].
    rewrite (sampleSegment_ok fuel s Hs _ _ _ Hts). cbn [bind].
    rewrite (IH _ _ Hr'). cbn [points samples flat_map].
    rewrite <- app_assoc. reflexivity.
Qed.

Lemma sampleSegments_first (fuel : nat) (ts : list F)
  (segments : list (Segment F)) :
  loopParams fuel tenth = Some ts ->
  segments <> [] -> Forall wfSegment segments ->
  sampleSegments fuel segments 0 segments (mkPath [])
  = Ok (mkPath (d (nth 0 segments (mkSegment [] [] [] [])) :: samples ts segments)).
Proof.
  intros Hts Hne Hw. destruct segments as [|s rest]; [congruence|].
  inversion Hw as [|? ? Hs Hr]; subst.
  cbn [sampleSegments Nat.eqb at_ nth_error bind nth].
  destruct Hs as (Ha & Hb & Hc & Hd).
  destruct (is2D_inv _ Hd) as (x & y & Ed). rewrite Ed. cbn [nth_error bind].
  unfold addPoint, at_. cbn [points app nth_error bind].
  rewrite (sampleSegment_ok fuel s) with (ts := ts); auto;
    [|now repeat split].
  cbn [bind points app].
  rewrite (sampleSegments_later fuel ts _ Hts _ _ _ Hr).
  cbn [points app samples flat_map]. reflexivity.
Qed.

Lemma window_props (ctrl : list (Point F)) (i : nat) (s : Segment F) :
  Forall is2D ctrl -> i + 3 < length ctrl -> window ctrl i s ->
  wfSegment s /\ d s = nth (i + 1) ctrl [].
Proof.
  intros Hc Hi Hs. destruct (window_2D ctrl i Hc Hi) as (s' & Hs' & Hp).
  unfold window in *. rewrite Hs in Hs'. now injection Hs' as <-.
Qed.

Lemma windows_wf (ctrl : list (Point F)) (indices : list nat)
  (segs : list (Segment F)) :
  Forall is2D ctrl -> Forall (fun i => i + 3 < length ctrl) indices ->
  Forall2 (window ctrl) indices segs -> Forall wfSegment segs.
Proof.
  intros Hc Hi Hf. induction Hf as [|i s indices segs Hs Hf IH];
    constructor; inversion Hi; subst.
  - now apply (window_props ctrl i).
  - now apply IH.
Qed.

Lemma extrapolated_length (w : list (Point F)) :
  length (extrapolated w) = length w + 2.
Proof.
  unfold extrapolated. cbn [length]. rewrite length_app. simpl. lia.
Qed.

Lemma extrapolated_2D (w : list (Point F)) :
  Forall is2D w -> Forall is2D (extrapolated w).
Proof.
  intros Hw. unfold extrapolated. constructor; [reflexivity|].
  apply Forall_app. split; [assumption|]. now constructor.
Qed.

(** The original waypoints sit, in order, between the two injected points. *)
Lemma extrapolated_nth (w : list (Point F)) (i : nat) :
  i < length w -> nth (S i) (extrapolated w) [] = nth i w [].
Proof.
  intros Hi. unfold extrapolated. cbn [nth]. now rewrite app_nth1.
Qed.

Lemma samples_length (ts : list F) (segs : list (Segment F)) :
  length (samples ts segs) = length ts * length segs.
Proof.
  unfold samples. induction segs as [|s segs IH]; cbn [flat_map length].
  - lia.
  - rewrite length_app, length_map, IH. lia.
Qed.

(** The run of [generateSmoothPath] on a path of at least two 2-D waypoints,
    given the parameter values [ts] of the sampling loop. *)
Lemma generateSmoothPath_ok (fuel : nat) (ts : list F) (path : Path F) :
  loopParams fuel tenth = Some ts ->
  2 <= length (points path) -> Forall is2D (points path) ->
  exists segs,
    Forall2 (window (extrapolated (points path)))
      (seq 0 (length (points path) - 1)) segs
    /\ Forall wfSegment segs
    /\ generateSmoothPath fuel path
       = Ok (mkPath (nth 0 (points path) [] :: samples ts segs)).
Proof.
  intros Hts Hn Hw. unfold generateSmoothPath.
  rewrite (injectControls_ok path Hn Hw). cbn [bind points].
  pose proof (extrapolated_2D _ Hw) as Hc.
  pose proof (extrapolated_length (points path)) as Hl.
  replace (Nat.sub (length (extrapolated (points path))) 3)
    with (Nat.sub (length (points path)) 1) by lia.
  assert (Hi : Forall (fun i => i + 3 < length (extrapolated (points path)))
                 (seq 0 (length (points path) - 1))).
  { apply Forall_forall. intros i Hin. apply in_seq in Hin. lia. }
  destruct (buildSegments_ok _ _ [] Hc Hi) as (segs & Hb & Hf).
  exists segs. pose proof (windows_wf _ _ _ Hc Hi Hf) as Hwf.
  split; [assumption|]. split; [assumption|].
  rewrite Hb. cbn [bind app].
  assert (Hne : segs <> []).
  { intros ->. apply Forall2_length in Hf. rewrite length_seq in Hf.
    simpl in Hf. lia. }
  rewrite (sampleSegments_first fuel ts segs Hts Hne Hwf).
  do 2 f_equal.
  destruct segs as [|s segs]; [congruence|]. cbn [nth].
  destruct (length (points path) - 1)%nat as [|n] eqn:En; [lia|].
  cbn [seq] in Hf. inversion Hf as [|? ? ? ? Hs _]; subst.
  apply window_props in Hs; [|assumption|lia].
  destruct Hs as [_ ->]. f_equal.
  apply (extrapolated_nth (points path) 0). lia.
Qed.

(** Sample [i] of segment [j] sits at index [length ts * j + i]. *)
Lemma samples_nth (ts : list F) (segs : list (Segment F)) (j i : nat)
  (s0 : Segment F) (t0 : F) :
  i < length ts -> j < length segs ->
  nth_error (samples ts segs) (length ts * j + i)
  = Some (samplePoint (nth j segs s0) (nth i ts t0)).
Proof.
  intros Hi. revert j. unfold samples.
  induction segs as [|s segs IH]; intros j Hj; cbn [length] in Hj; [lia|].
  cbn [flat_map]. destruct j as [|j].
  - rewrite Nat.mul_0_r, Nat.add_0_l, nth_error_app1
      by (rewrite length_map; exact Hi).
    rewrite nth_error_map, (nth_error_nth' ts t0 Hi). reflexivity.
  - rewrite nth_error_app2 by (rewrite length_map; lia).
    rewrite length_map.
    replace (length ts * S j + i - length ts) with (length ts * j + i) by lia.
    cbn [nth]. apply IH. lia.
Qed.

Lemma windows_nth (ctrl : list (Point F)) (n : nat) (segs : list (Segment F))
  (i : nat) (s0 : Segment F) :
  Forall2 (window ctrl) (seq 0 n) segs -> i < n ->
  window ctrl i (nth i segs s0).
Proof.
  intros Hf Hi.
  assert (Hg : forall l start, Forall2 (window ctrl) (seq start n) l ->
            forall j, j < n -> window ctrl (start + j) (nth j l s0)).
  { clear. induction n as [|n IH]; intros l start Hf j Hj; [lia|].
    cbn [seq] in Hf. inversion Hf as [|? s ? l' Hs Hf']; subst.
    destruct j as [|j]; cbn [nth].
    - now rewrite Nat.add_0_r.
    - rewrite <- Nat.add_succ_comm. apply IH; [assumption|lia]. }
  apply (Hg segs 0 Hf i Hi).
Qed.

Lemma windows_length (ctrl : list (Point F)) (n : nat)
  (segs : list (Segment F)) :
  Forall2 (window ctrl) (seq 0 n) segs -> length segs = n.
Proof.
  intros Hf. apply Forall2_length in Hf. now rewrite length_seq in Hf.
Qed.

End Generic.

Lemma pow_special_AnnexF : AnnexF pow_special.
Proof.
  split.
  - intros y. reflexivity.
  - intros y Hy. unfold pow_special.
    change (PrimFloat.eqb 0 1) with false. change (PrimFloat.eqb 0 0) with true.
    cbn [andb]. now rewrite Hy.
Qed.

(** ** Special values in binary64 *)

Section Binary64Facts.

Local Open Scope float_scope.

Lemma add_nan_l (x : float) : nan + x = nan.
Proof. apply Prim2SF_inj. rewrite add_spec. reflexivity. Qed.

Lemma add_nan_r (x : float) : x + nan = nan.
Proof. apply Prim2SF_inj. rewrite add_spec. now destruct (Prim2SF x). Qed.

Lemma sub_nan_l (x : float) : nan - x = nan.
Proof. apply Prim2SF_inj. rewrite sub_spec. reflexivity. Qed.

Lemma sub_nan_r (x : float) : x - nan = nan.
Proof. apply Prim2SF_inj. rewrite sub_spec. now destruct (Prim2SF x). Qed.

Lemma mul_nan_l (x : float) : nan * x = nan.
Proof. apply Prim2SF_inj. rewrite mul_spec. reflexivity. Qed.

Lemma mul_nan_r (x : float) : x * nan = nan.
Proof. apply Prim2SF_inj. rewrite mul_spec. now destruct (Prim2SF x). Qed.

(** [x - x] is +0 for a finite [x] (and NaN otherwise). *)
Lemma sub_diag (x : float) : is_finite x = true -> x - x = 0.
Proof.
  intros Hx. apply Prim2SF_inj. rewrite sub_spec.
  unfold is_finite, is_nan, is_infinity in Hx.
  rewrite !eqb_spec, abs_spec in Hx.
  destruct (Prim2SF x) as [sg|sg| |sg m e].
  - now destruct sg.
  - now destruct sg.
  - discriminate.
  - unfold SF64sub, SFsub. rewrite Z.sub_diag. reflexivity.
Qed.

End Binary64Facts.

Create Rewrite HintDb nan.
#[local] Hint Rewrite add_nan_l add_nan_r sub_nan_l sub_nan_r mul_nan_l
  mul_nan_r : nan.

(** ** The program in binary64 *)

Section Machine.

Variable pow : float -> float -> float.
Hypothesis conforming : AnnexF pow.

(** The arithmetic of this section. *)
#[local] Instance machine : Arith float := Binary64 pow.

(** *** The sampling loop *)

Lemma loopParams64 (k : nat) : loopParams (11 + k) tenth = Some ts64.
Proof. reflexivity. Qed.

Lemma loopParams64_ge (fuel : nat) :
  11 <= fuel -> loopParams fuel tenth = Some ts64.
Proof.
  intros Hf. replace fuel with (11 + (fuel - 11)) by lia. apply loopParams64.
Qed.

Lemma generateSmoothPath64 (fuel : nat) (path : Path float) :
  11 <= fuel -> 2 <= length (points path) -> Forall is2D (points path) ->
  exists segs,
    Forall2 (window (extrapolated (points path)))
      (seq 0 (length (points path) - 1)) segs
    /\ Forall wfSegment segs
    /\ generateSmoothPath fuel path
       = Ok (mkPath (nth 0 (points path) [] :: samples ts64 segs)).
Proof.
  intros Hf. apply generateSmoothPath_ok, loopParams64_ge, Hf.
Qed.

(** *** Zero knot intervals *)

Local Open Scope float_scope.

Ltac expose :=
  cbn [fadd fsub fmul fdiv fsqrt fpow lit tenth three_quarters machine
       Binary64 lit64];
  change (of_uint63 (Uint63.of_pos 1)) with 1;
  change (of_uint63 (Uint63.of_pos 2)) with 2;
  change (of_uint63 (Uint63.of_pos 3)) with 3.

Lemma distance64 (x0 y0 x1 y1 : float) :
  is_finite y1 = true ->
  distance [x0; y0] [x1; y1] = Ok (sqrt (pow (x1 - x0) 2 + pow 0 2)).
Proof.
  intros Hy. unfold distance, getMagnitude. cbn [at_ nth_error bind].
  expose. now rewrite (sub_diag y1 Hy).
Qed.

Lemma distance64_same_x (x y0 y1 : float) :
  is_finite x = true -> is_finite y1 = true ->
  distance [x; y0] [x; y1] = Ok 0.
Proof.
  intros Hx Hy. rewrite (distance64 _ _ _ _ Hy), (sub_diag x Hx).
  now rewrite (pow_zero_pos pow conforming 2).
Qed.

(** [p0] and [p1] share their x-coordinate: [t01] is zero, [0/0] is computed,
    and the x-coefficients of the cubic are NaN whatever [p2] and [p3] are. *)
Lemma calcCoefficients_same_x (alpha tension x y0 y1 : float) (p2 p3 : Point float) :
  is_finite x = true -> is_finite y1 = true -> (0 <? alpha) = true ->
  is2D p2 -> is2D p3 ->
  exists s, calcCoefficients alpha tension [x; y0] [x; y1] p2 p3 = Ok s
    /\ d s = [x; y1]
    /\ coord (a s) 0 = nan /\ coord (b s) 0 = nan /\ coord (c s) 0 = nan.
Proof.
  intros Hx Hy Ha H2 H3.
  destruct (is2D_inv _ H2) as (x2 & y2 & ->), (is2D_inv _ H3) as (x3 & y3 & ->).
  unfold calcCoefficients. rewrite (distance64_same_x x y0 y1 Hx Hy).
  cbn [distance getMagnitude at_ nth_error bind].
  eexists. split; [reflexivity|]. cbn [a b c d coord nth]. expose.
  rewrite (pow_zero_pos pow conforming alpha Ha), (sub_diag x Hx).
  change (0 / 0) with nan. autorewrite with nan. now repeat split.
Qed.

(** [p0] and [p1] coincide: both coordinates of [a], [b] and [c] are NaN. *)
Lemma calcCoefficients_coincident (alpha tension x y : float) (p2 p3 : Point float) :
  is_finite x = true -> is_finite y = true -> (0 <? alpha) = true ->
  is2D p2 -> is2D p3 ->
  calcCoefficients alpha tension [x; y] [x; y] p2 p3
  = Ok {| a := [nan; nan]; b := [nan; nan]; c := [nan; nan]; d := [x; y] |}.
Proof.
  intros Hx Hy Ha H2 H3.
  destruct (is2D_inv _ H2) as (x2 & y2 & ->), (is2D_inv _ H3) as (x3 & y3 & ->).
  unfold calcCoefficients. rewrite (distance64_same_x x y y Hx Hy).
  cbn [distance getMagnitude at_ nth_error bind]. expose.
  rewrite (pow_zero_pos pow conforming alpha Ha), (sub_diag x Hx), (sub_diag y Hy).
  change (0 / 0) with nan. autorewrite with nan. reflexivity.
Qed.

(** [p2] and [p3] coincide: [t23] is zero and [a] and [b] are NaN. *)
Lemma calcCoefficients_coincident_tail (alpha tension x y : float)
  (p0 p1 : Point float) :
  is_finite x = true -> is_finite y = true -> (0 <? alpha) = true ->
  is2D p0 -> is2D p1 ->
  exists s, calcCoefficients alpha tension p0 p1 [x; y] [x; y] = Ok s
    /\ a s = [nan; nan] /\ b s = [nan; nan] /\ d s = p1.
Proof.
  intros Hx Hy Ha H0 H1.
  destruct (is2D_inv _ H0) as (x0 & y0 & ->), (is2D_inv _ H1) as (x1 & y1 & ->).
  unfold calcCoefficients. rewrite (distance64_same_x x y y Hx Hy).
  cbn [distance getMagnitude at_ nth_error bind].
  eexists. split; [reflexivity|]. cbn [a b c d]. expose.
  rewrite (pow_zero_pos pow conforming alpha Ha), (sub_diag x Hx), (sub_diag y Hy).
  change (0 / 0) with nan. autorewrite with nan. now repeat split.
Qed.

(** Evaluation of a closed term in which [pow] occurs at the arguments that
    Annex F fixes. *)
Ltac float_eval :=
  repeat first
    [ rewrite (pow_one_l pow conforming)
    | rewrite (pow_zero_pos pow conforming) by reflexivity
    | progress cbv ].

(** Distinct consecutive points with the same x: spacing 0 and a non-finite
    segment. *)
Lemma calcCoefficients_vertical :
  calcCoefficients 0.75 0 [0; 0] [0; 1] [1; 2] [2; 3]
  = Ok {| a := [nan; infinity]; b := [nan; neg_infinity];
          c := [nan; infinity]; d := [0; 1] |}.
Proof. float_eval. reflexivity. Qed.

(** The middle pair coincides: [t12] is zero, nothing is divided by zero, and
    the segment is the constant [p1]. *)
Lemma calcCoefficients_coincident_middle :
  calcCoefficients 0.75 0 [0; 0] [1; 1] [1; 1] [2; 2]
  = Ok {| a := [0; 0]; b := [-0; -0]; c := [0; 0]; d := [1; 1] |}.
Proof. float_eval. reflexivity. Qed.


(** Two distinct waypoints on a vertical line: every sample is NaN. *)
Lemma generateSmoothPath_vertical (fuel : nat) :
  11 <= fuel ->
  generateSmoothPath fuel (mkPath [[0; 0]; [0; 1]])
  = Ok (mkPath ([0; 0] :: repeat [nan; nan] 10)).
Proof.
  intros Hf. replace fuel with (11 + (fuel - 11))%nat by lia.
  generalize (fuel - 11)%nat as k. intros k.
  float_eval. autorewrite with nan. reflexivity.
Qed.

End Machine.

(** ** The distance in exact arithmetic *)

Section ExactFacts.

Local Open Scope R_scope.

Lemma Int_part_IZR (z : Z) : Int_part (IZR z) = z.
Proof. symmetry. apply Int_part_spec. lra. Qed.

Lemma Rpow_integral (x : R) (z : Z) : Rpow x (IZR z) = powerRZ x z.
Proof.
  unfold Rpow. rewrite Int_part_IZR.
  destruct (Req_dec_T (IZR z) (IZR z)) as [_|Hne]; [reflexivity|congruence].
Qed.

Lemma Rpow_2 (x : R) : Rpow x 2 = x * x.
Proof. rewrite (Rpow_integral x 2). simpl. ring. Qed.

Lemma distance_exact (x0 y0 x1 y1 : R) :
  distance [x0; y0] [x1; y1] = Ok (Rabs (x1 - x0)).
Proof.
  unfold distance, getMagnitude. cbn [at_ nth_error bind].
  unfold fsqrt, fadd, fsub, fpow, lit, Exact. f_equal.
  rewrite !Rpow_2.
  replace ((x1 - x0) * (x1 - x0) + (y1 - y1) * (y1 - y1)) with (Rsqr (x1 - x0))
    by (unfold Rsqr; ring).
  apply sqrt_Rsqr_abs.
Qed.

End ExactFacts.

(** ** The claims of the specification *)

Ltac float_neq :=
  let H := fresh in
  intros H;
  match type of H with
  | ?x = ?y => apply (f_equal (fun z => PrimFloat.eqb z y)) in H
  end;
  cbv in H; discriminate.

Lemma ts64_no_one : ~ In 1%float ts64.
Proof.
  unfold ts64. cbn [In].
  intros [H|[H|[H|[H|[H|[H|[H|[H|[H|[H|[]]]]]]]]]]]; revert H; float_neq.
Qed.

(** C1.  In binary64, for every [pow], a path of N >= 2 two-dimensional
    waypoints is smoothed into the first waypoint followed by the ten samples
    of each of N-1 segments: [1 + 10*(N-1)] points.  No condition on the knot
    spacings is needed: a division by zero yields NaN or an infinity, not an
    error. *)
Theorem output_length (pow : float -> float -> float) (fuel : nat)
  (path : Path float) :
  11 <= fuel -> 2 <= length (points path) -> Forall is2D (points path) ->
  exists segs out,
    generateSmoothPath (AF := Binary64 pow) fuel path = Ok out
    /\ length segs = length (points path) - 1
    /\ length ts64 = 10
    /\ points out
       = nth 0 (points path) [] :: samples (AF := Binary64 pow) ts64 segs
    /\ length (points out) = 1 + 10 * (length (points path) - 1).
Proof.
  intros Hf Hn Hw.
  destruct (generateSmoothPath64 pow fuel path Hf Hn Hw) as (segs & Hwin & _ & Hrun).
  exists segs. eexists. split; [exact Hrun|].
  pose proof (windows_length _ _ _ Hwin) as Hl.
  repeat split; [exact Hl|].
  cbn [points length]. rewrite samples_length, Hl. reflexivity.
Qed.

Lemma output_length_witness :
  exists segs out,
    generateSmoothPath (AF := Binary64 pow_special) 11 mainPath = Ok out
    /\ length segs = 6
    /\ length ts64 = 10
    /\ points out
       = [10; 7]%float :: samples (AF := Binary64 pow_special) ts64 segs
    /\ length (points out) = 61.
Proof.
  apply (output_length pow_special 11 mainPath);
    [lia | simpl; lia | repeat constructor].
Defined.

(** C4.  The first point of the smoothed path is the first waypoint, with
    equality of the coordinates as binary64 values. *)
Theorem first_point_is_first_waypoint (pow : float -> float -> float)
  (fuel : nat) (path : Path float) :
  11 <= fuel -> 2 <= length (points path) -> Forall is2D (points path) ->
  exists out,
    generateSmoothPath (AF := Binary64 pow) fuel path = Ok out
    /\ nth_error (points out) 0 = nth_error (points path) 0.
Proof.
  intros Hf Hn Hw.
  destruct (generateSmoothPath64 pow fuel path Hf Hn Hw) as (segs & _ & _ & Hrun).
  eexists. split; [exact Hrun|]. cbn [points].
  change (nth_error (nth 0 (points path) [] :: samples ts64 segs) 0)
    with (Some (nth 0 (points path) [])).
  symmetry. apply nth_error_nth'. lia.
Qed.

Lemma first_point_is_first_waypoint_witness :
  exists out,
    generateSmoothPath (AF := Binary64 pow_special) 11 mainPath = Ok out
    /\ nth_error (points out) 0 = Some [10; 7]%float.
Proof.
  apply (first_point_is_first_waypoint pow_special 11 mainPath);
    [lia | simpl; lia | repeat constructor].
Defined.

(** C5.  In any arithmetic, the control sequence that [generateSmoothPath]
    builds from N >= 2 waypoints [w] is [w[0] - (w[1] - w[0])], then [w] in
    its order, then [w[N-1] + (w[N-1] - w[N-2])]: N+2 points, on which the
    segments are then computed. *)
Theorem control_sequence {F : Type} {AF : Arith F} (fuel : nat) (path : Path F) :
  2 <= length (points path) -> Forall is2D (points path) ->
  exists ctrl,
    injectControls path = Ok ctrl
    /\ points ctrl
       = startControl (points path) :: points path ++ [finalControl (points path)]
    /\ length (points ctrl) = length (points path) + 2
    /\ (forall i, i < length (points path) ->
          nth_error (points ctrl) (S i) = nth_error (points path) i)
    /\ generateSmoothPath fuel path
       = (segments <- buildSegments ctrl (seq 0 (length (points ctrl) - 3)) [] ;;
          sampleSegments fuel segments 0 segments (mkPath [])).
Proof.
  intros Hn Hw. eexists. split; [exact (injectControls_ok path Hn Hw)|].
  cbn [points]. split; [reflexivity|].
  split; [apply extrapolated_length|]. split.
  - intros i Hi. unfold extrapolated. cbn [nth_error].
    now rewrite nth_error_app1.
  - unfold generateSmoothPath. now rewrite (injectControls_ok path Hn Hw).
Qed.

Lemma control_sequence_witness :
  exists ctrl,
    injectControls (AF := Binary64 pow_special) mainPath = Ok ctrl
    /\ points ctrl
       = [5; 4]%float :: points mainPath ++ [[45; 12]%float]
    /\ length (points ctrl) = 9
    /\ (forall i, i < 7 ->
          nth_error (points ctrl) (S i) = nth_error (points mainPath) i)
    /\ generateSmoothPath (AF := Binary64 pow_special) 11 mainPath
       = (segments <- buildSegments (AF := Binary64 pow_special) ctrl
                        (seq 0 (length (points ctrl) - 3)) [] ;;
          sampleSegments (AF := Binary64 pow_special) 11 segments 0 segments
            (mkPath [])).
Proof.
  apply (control_sequence (AF := Binary64 pow_special) 11 mainPath);
    [simpl; lia | repeat constructor].
Defined.

(** C7.  In any arithmetic, a path of fewer than two waypoints makes the
    boundary extrapolation, and with it [generateSmoothPath], throw
    [std::out_of_range] (from [deque::at]); no path is returned. *)
Theorem too_few_waypoints {F : Type} {AF : Arith F} (fuel : nat) (path : Path F) :
  length (points path) < 2 ->
  injectControls path = Throw out_of_range
  /\ generateSmoothPath fuel path = Throw out_of_range.
Proof.
  intros Hn. split; [|now apply generateSmoothPath_short].
  destruct path as [[|w0 [|w1 w]]]; cbn [points length] in Hn; try lia;
    reflexivity.
Qed.

Lemma too_few_waypoints_witness :
  injectControls (AF := Binary64 pow_special) (mkPath [[10; 7]%float])
  = Throw out_of_range
  /\ generateSmoothPath (AF := Binary64 pow_special) 11 (mkPath [[10; 7]%float])
     = Throw out_of_range.
Proof.
  apply (too_few_waypoints (AF := Binary64 pow_special) 11 (mkPath [[10; 7]%float])).
  simpl. lia.
Defined.

(** C3.  [distance] takes the magnitude of [(p1.x - p0.x, p1.y - p1.y)].  In
    binary64, for a finite [p1.y], that is [sqrt(pow(p1.x - p0.x, 2) + pow(0, 2))],
    in which no y-coordinate occurs; in exact arithmetic it is
    [|p1.x - p0.x|], and not the Euclidean distance: the points (0,0) and
    (0,1) are at distance 0. *)
Theorem distance_ignores_y :
  (forall (pow : float -> float -> float) (x0 y0 x1 y1 : float),
     is_finite y1 = true ->
     distance (AF := Binary64 pow) [x0; y0] [x1; y1]
     = Ok (PrimFloat.sqrt (pow (x1 - x0) 2 + pow 0 2))%float)
  /\ (forall (pow : float -> float -> float) (x0 y0 y0' x1 y1 y1' : float),
        is_finite y1 = true -> is_finite y1' = true ->
        distance (AF := Binary64 pow) [x0; y0] [x1; y1]
        = distance (AF := Binary64 pow) [x0; y0'] [x1; y1'])
  /\ (forall x0 y0 x1 y1 : R,
        distance [x0; y0] [x1; y1] = Ok (Rabs (x1 - x0)))
  /\ distance [0; 0]%R [0; 1]%R = Ok 0%R
  /\ R_sqrt.sqrt ((0 - 0) * (0 - 0) + (1 - 0) * (1 - 0)) = 1%R.
Proof.
  split; [exact distance64|].
  split.
  { intros pow x0 y0 y0' x1 y1 y1' Hy Hy'.
    now rewrite (distance64 pow _ _ _ _ Hy), (distance64 pow _ _ _ _ Hy'). }
  split; [exact distance_exact|]. split.
  - rewrite distance_exact. f_equal.
    replace (0 - 0)%R with 0%R by ring. apply Rabs_R0.
  - replace ((0 - 0) * (0 - 0) + (1 - 0) * (1 - 0))%R with 1%R by ring.
    apply sqrt_1.
Qed.

Lemma distance_ignores_y_witness :
  distance (AF := Binary64 pow_special) [10; 7]%float [15; 10]%float
  = distance (AF := Binary64 pow_special) [10; 0]%float [15; 0]%float.
Proof.
  apply (proj1 (proj2 distance_ignores_y) pow_special); reflexivity.
Defined.

(** C8.  The loop of line 159 run in binary64: for every segment it appends
    the cubic at the ten values [ts64], which repeated addition of 0.1
    produces; the tenth is 0.9999999999999999 and none of them is 1, where the
    comments of lines 144 and 156-157 and the bound [t <= 1] have the last
    sample at [t = 1]. *)
Lemma sampling_misses_one :
  ~ In 1%float ts64
  /\ nth 9 ts64 0%float = 0.9999999999999999%float
  /\ forall (pow : float -> float -> float) (k : nat)
       (ax ay bx by_ cx cy dx dy : float) (sp : list (Point float)),
       let s := mkSegment [ax; ay] [bx; by_] [cx; cy] [dx; dy] in
       sampleSegment (AF := Binary64 pow) (11 + k) s 0.1%float (mkPath sp)
       = Ok (mkPath (sp ++ map (samplePoint (AF := Binary64 pow) s) ts64)).
Proof.
  split; [exact ts64_no_one|]. split; [reflexivity|].
  intros pow k ax ay bx by_ cx cy dx dy sp s.
  apply (sampleSegment_ok (AF := Binary64 pow) (11 + k) s);
    [now repeat split | reflexivity].
Qed.

(** X17.  The sampling loop in binary64, for every [pow] and any fuel of at
    least 11: it ends, having run its body exactly ten times, at 0.1, 0.2,
    the successor of 0.3, 0.4, 0.5, 0.6, 0.7 and the predecessors of 0.8, 0.9
    and 1.  The values increase strictly, and the points are appended in this
    order. *)
Theorem sampling_parameters (pow : float -> float -> float) (fuel : nat)
  (s : Segment float) (smoothedPath : Path float) :
  11 <= fuel -> wfSegment s ->
  sampleSegment (AF := Binary64 pow) fuel s 0.1%float smoothedPath
  = Ok (mkPath (points smoothedPath
                ++ map (samplePoint (AF := Binary64 pow) s) ts64))
  /\ length ts64 = 10
  /\ increasing64 ts64 = true
  /\ ts64 = [ 0.1; 0.2; next_up 0.3; 0.4; 0.5; 0.6; 0.7; next_down 0.8;
              next_down 0.9; next_down 1 ]%float.
Proof.
  intros Hf Hs. split; [|now repeat split].
  apply (sampleSegment_ok (AF := Binary64 pow) fuel s Hs).
  apply (loopParams64_ge pow fuel Hf).
Qed.

Lemma sampling_parameters_witness :
  sampleSegment (AF := Binary64 pow_special) 11
    (mkSegment [0; 1.35] [0; -2.3] [1; 0.05] [1; 1])%float 0.1%float (mkPath [])
  = Ok (mkPath ([]
                ++ map (samplePoint (AF := Binary64 pow_special)
                          (mkSegment [0; 1.35] [0; -2.3] [1; 0.05] [1; 1])%float)
                    ts64))
  /\ length ts64 = 10
  /\ increasing64 ts64 = true
  /\ ts64 = [ 0.1; 0.2; next_up 0.3; 0.4; 0.5; 0.6; 0.7; next_down 0.8;
              next_down 0.9; next_down 1 ]%float.
Proof.
  apply (sampling_parameters pow_special 11
           (mkSegment [0; 1.35] [0; -2.3] [1; 0.05] [1; 1])%float (mkPath []));
    [lia | now repeat split].
Defined.

(** C6, as stated, fails: with [p0 = p1] no error is raised for any [pow], and
    for a conforming [pow] the call returns a segment of NaNs. *)
Lemma coincident_points_raise_nothing :
  (forall (pow : float -> float -> float) (e : exn),
     calcCoefficients (AF := Binary64 pow) 0.75%float 0%float
       [0; 0]%float [0; 0]%float [1; 1]%float [2; 2]%float <> Throw e)
  /\ (forall pow : float -> float -> float, AnnexF pow ->
        calcCoefficients (AF := Binary64 pow) 0.75%float 0%float
          [0; 0]%float [0; 0]%float [1; 1]%float [2; 2]%float
        = Ok {| a := [nan; nan]; b := [nan; nan]; c := [nan; nan];
                d := [0; 0]%float |}).
Proof.
  split.
  - intros pow e. discriminate.
  - intros pow Hpow.
    now apply (calcCoefficients_coincident pow Hpow).
Qed.

(** C6, amended.  [calcCoefficients] checks no spacing: on two-dimensional
    control points it returns a segment in any arithmetic.  In binary64, with
    a conforming [pow], finite coordinates and [alpha > 0]: when [p0] and [p1]
    coincide, [0/0] is computed and [a], [b], [c] are NaN in both coordinates;
    when [p2] and [p3] coincide, [a] and [b] are; when only [p1] and [p2]
    coincide nothing need be divided by zero, as for (0,0), (1,1), (1,1),
    (2,2), whose segment is the constant (1,1). *)
Theorem no_spacing_check :
  (forall (F : Type) (AF : Arith F) (alpha tension : F) (p0 p1 p2 p3 : Point F),
     is2D p0 -> is2D p1 -> is2D p2 -> is2D p3 ->
     exists s, calcCoefficients alpha tension p0 p1 p2 p3 = Ok s)
  /\ (forall pow : float -> float -> float, AnnexF pow ->
      forall (alpha tension x y : float) (q r : Point float),
        is_finite x = true -> is_finite y = true ->
        PrimFloat.ltb 0 alpha = true -> is2D q -> is2D r ->
        calcCoefficients (AF := Binary64 pow) alpha tension [x; y] [x; y] q r
        = Ok {| a := [nan; nan]; b := [nan; nan]; c := [nan; nan];
                d := [x; y] |}
        /\ exists s,
             calcCoefficients (AF := Binary64 pow) alpha tension q r [x; y] [x; y]
             = Ok s
             /\ a s = [nan; nan] /\ b s = [nan; nan] /\ d s = r)
  /\ (forall pow : float -> float -> float, AnnexF pow ->
        calcCoefficients (AF := Binary64 pow) 0.75%float 0%float
          [0; 0]%float [1; 1]%float [1; 1]%float [2; 2]%float
        = Ok {| a := [0; 0]%float; b := [-0; -0]%float; c := [0; 0]%float;
                d := [1; 1]%float |}).
Proof.
  split.
  { intros F AF alpha tension p0 p1 p2 p3 H0 H1 H2 H3.
    destruct (calcCoefficients_2D alpha tension p0 p1 p2 p3 H0 H1 H2 H3)
      as (s & Hs & _).
    now exists s. }
  split.
  - intros pow Hpow alpha tension x y q r Hx Hy Ha Hq Hr. split.
    + now apply (calcCoefficients_coincident pow Hpow).
    + now apply (calcCoefficients_coincident_tail pow Hpow).
  - intros pow Hpow. apply (calcCoefficients_coincident_middle pow Hpow).
Qed.

Lemma no_spacing_check_witness :
  (exists s,
     calcCoefficients (AF := Binary64 pow_special) 0.75%float 0%float
       [10; 7]%float [10; 7]%float [15; 10]%float [20; 13]%float = Ok s)
  /\ calcCoefficients (AF := Binary64 pow_special) 0.75%float 0%float
       [10; 7]%float [10; 7]%float [15; 10]%float [20; 13]%float
     = Ok {| a := [nan; nan]; b := [nan; nan]; c := [nan; nan];
             d := [10; 7]%float |}.
Proof.
  split.
  - apply (proj1 no_spacing_check float (Binary64 pow_special)); reflexivity.
  - apply (proj1 (proj2 no_spacing_check) pow_special pow_special_AnnexF
             0.75%float 0%float 10%float 7%float [15; 10]%float [20; 13]%float);
      reflexivity.
Defined.

(** C10.  With a conforming [pow], the consecutive points (0,0), (0,1), (1,2),
    (2,3) are pairwise distinct, yet the first two share their x-coordinate:
    their distance is 0, the knot spacing [pow(0, 0.75)] is 0, [0/0] and
    [1/0] are computed and the segment has NaN and infinite coefficients.  So
    it is for any [p0], [p1] with one finite x-coordinate, and the two
    distinct waypoints (0,0), (0,1) are smoothed into NaNs. *)
Theorem zero_spacing_reachable (pow : float -> float -> float) :
  AnnexF pow ->
  ([0; 0] <> [0; 1] /\ [0; 1] <> [1; 2] /\ [1; 2] <> [2; 3])%float
  /\ distance (AF := Binary64 pow) [0; 0]%float [0; 1]%float = Ok 0%float
  /\ pow 0%float 0.75%float = 0%float
  /\ calcCoefficients (AF := Binary64 pow) 0.75%float 0%float
       [0; 0]%float [0; 1]%float [1; 2]%float [2; 3]%float
     = Ok {| a := [nan; infinity]; b := [nan; neg_infinity];
             c := [nan; infinity]; d := [0; 1]%float |}
  /\ (forall (alpha tension x y0 y1 : float) (p2 p3 : Point float),
        is_finite x = true -> is_finite y1 = true ->
        PrimFloat.ltb 0 alpha = true -> is2D p2 -> is2D p3 ->
        exists s,
          calcCoefficients (AF := Binary64 pow) alpha tension [x; y0] [x; y1] p2 p3
          = Ok s
          /\ d s = [x; y1]
          /\ coord (AF := Binary64 pow) (a s) 0 = nan
          /\ coord (AF := Binary64 pow) (b s) 0 = nan
          /\ coord (AF := Binary64 pow) (c s) 0 = nan)
  /\ (forall k : nat,
        generateSmoothPath (AF := Binary64 pow) (11 + k)
          (mkPath [[0; 0]; [0; 1]]%float)
        = Ok (mkPath ([0; 0]%float :: repeat [nan; nan] 10))).
Proof.
  intros Hpow. split.
  { repeat split; intros H.
    - apply (f_equal (fun l => PrimFloat.eqb (nth 1 l 0%float) 0)) in H.
      cbv in H. discriminate.
    - apply (f_equal (fun l => PrimFloat.eqb (nth 0 l 0%float) 0)) in H.
      cbv in H. discriminate.
    - apply (f_equal (fun l => PrimFloat.eqb (nth 0 l 0%float) 1)) in H.
      cbv in H. discriminate. }
  split; [now apply (distance64_same_x pow Hpow)|].
  split; [now apply (pow_zero_pos pow Hpow)|].
  split; [exact (calcCoefficients_vertical pow Hpow)|].
  split.
  - intros alpha tension x y0 y1 p2 p3 Hx Hy Ha H2 H3.
    now apply (calcCoefficients_same_x pow Hpow).
  - intros k. apply (generateSmoothPath_vertical pow Hpow). lia.
Qed.

Lemma zero_spacing_reachable_witness :
  ([0; 0] <> [0; 1] /\ [0; 1] <> [1; 2] /\ [1; 2] <> [2; 3])%float
  /\ distance (AF := Binary64 pow_special) [0; 0]%float [0; 1]%float = Ok 0%float
  /\ pow_special 0%float 0.75%float = 0%float
  /\ calcCoefficients (AF := Binary64 pow_special) 0.75%float 0%float
       [0; 0]%float [0; 1]%float [1; 2]%float [2; 3]%float
     = Ok {| a := [nan; infinity]; b := [nan; neg_infinity];
             c := [nan; infinity]; d := [0; 1]%float |}
  /\ (forall (alpha tension x y0 y1 : float) (p2 p3 : Point float),
        is_finite x = true -> is_finite y1 = true ->
        PrimFloat.ltb 0 alpha = true -> is2D p2 -> is2D p3 ->
        exists s,
          calcCoefficients (AF := Binary64 pow_special) alpha tension
            [x; y0] [x; y1] p2 p3
          = Ok s
          /\ d s = [x; y1]
          /\ coord (AF := Binary64 pow_special) (a s) 0 = nan
          /\ coord (AF := Binary64 pow_special) (b s) 0 = nan
          /\ coord (AF := Binary64 pow_special) (c s) 0 = nan)
  /\ (forall k : nat,
        generateSmoothPath (AF := Binary64 pow_special) (11 + k)
          (mkPath [[0; 0]; [0; 1]]%float)
        = Ok (mkPath ([0; 0]%float :: repeat [nan; nan] 10))).
Proof.
  apply (zero_spacing_reachable pow_special). exact pow_special_AnnexF.
Defined.

(** ** Beyond the claims: bounds, in any arithmetic *)

Section Bounds.

Context {F : Type} {AF : Arith F}.

Lemma bind_ext {A B : Type} (m : result A) (k k' : A -> result B) :
  (forall x, m = Ok x -> k x = k' x) -> bind m k = bind m k'.
Proof. intros H. destruct m; cbn [bind]; auto. Qed.

Lemma bind_rmap {A B C : Type} (f : A -> B) (m : result A) (k : B -> result C) :
  bind (rmap f m) k = bind m (fun x => k (f x)).
Proof. now destruct m. Qed.

Lemma rmap_bind {A B C : Type} (f : B -> C) (m : result A) (k : A -> result B) :
  rmap f (bind m k) = bind m (fun x => rmap f (k x)).
Proof. now destruct m. Qed.

Lemma bind_Ok_inv {A B : Type} (m : result A) (k : A -> result B) (y : B) :
  bind m k = Ok y -> exists x, m = Ok x /\ k x = Ok y.
Proof. destruct m; cbn [bind]; try discriminate. intros H. now exists x. Qed.

Lemma bind_halts {A B : Type} (m : result A) (k : A -> result B) :
  halts m -> (forall x, m = Ok x -> halts (k x)) -> halts (bind m k).
Proof.
  unfold halts. destruct m; cbn [bind]; auto; intros; discriminate.
Qed.

Lemma at_halts {A : Type} (v : list A) (i : nat) : halts (at_ v i).
Proof. unfold halts, at_. destruct (nth_error v i); discriminate. Qed.

Lemma at_Ok_lt {A : Type} (v : list A) (i : nat) (x : A) :
  at_ v i = Ok x -> i < length v /\ nth_error v i = Some x.
Proof.
  unfold at_. destruct (nth_error v i) eqn:E; [|discriminate].
  intros [= ->]. split; [|reflexivity]. apply nth_error_Some. congruence.
Qed.

Lemma at_map {A B : Type} (f : A -> B) (v : list A) (i : nat) :
  at_ (map f v) i = rmap f (at_ v i).
Proof. unfold at_. rewrite nth_error_map. now destruct (nth_error v i). Qed.

Lemma at_xy (p : Point F) (i : nat) : i < 2 -> at_ (xy p) i = at_ p i.
Proof.
  intros Hi. unfold at_, xy. rewrite nth_error_firstn.
  now rewrite (proj2 (Nat.ltb_lt i 2) Hi).
Qed.

Lemma xy_2D (p : Point F) : has2 p -> is2D (xy p).
Proof. unfold has2, is2D, xy. intros H. rewrite length_firstn. lia. Qed.

Lemma xy_pair (x y : F) : xy [x; y] = [x; y].
Proof. reflexivity. Qed.

Lemma getMagnitude_xy (p : Point F) : getMagnitude (xy p) = getMagnitude p.
Proof. unfold getMagnitude. now rewrite !at_xy by lia. Qed.

Lemma distance_xy (p0 p1 : Point F) : distance (xy p0) (xy p1) = distance p0 p1.
Proof. unfold distance. now rewrite !at_xy by lia. Qed.

Lemma calcCoefficients_xy (alpha tension : F) (p0 p1 p2 p3 : Point F) :
  calcCoefficients alpha tension (xy p0) (xy p1) (xy p2) (xy p3)
  = calcCoefficients alpha tension p0 p1 p2 p3.
Proof.
  unfold calcCoefficients. now rewrite !distance_xy, !at_xy by lia.
Qed.

Ltac split_point p :=
  let x := fresh "x" in let y := fresh "y" in
  destruct p as [|x [|y p]].

(** X1.  [getMagnitude] throws [std::out_of_range] exactly on a vector of
    fewer than two elements.  [distance] reads [p0.at(0)] only: it throws
    exactly when [p0] is empty or [p1] has fewer than two elements, so a
    one-element [p0] is accepted.  Neither looks at a third element. *)
Theorem distance_bounds (p p0 p1 : Point F) :
  (getMagnitude p = Throw out_of_range <-> length p < 2)
  /\ ((exists m, getMagnitude p = Ok m) <-> 2 <= length p)
  /\ (distance p0 p1 = Throw out_of_range <-> length p0 < 1 \/ length p1 < 2)
  /\ ((exists m, distance p0 p1 = Ok m) <-> 1 <= length p0 /\ 2 <= length p1)
  /\ getMagnitude (xy p) = getMagnitude p
  /\ distance (xy p0) (xy p1) = distance p0 p1.
Proof.
  split; [|split; [|split; [|split; [|split]]]].
  - split_point p; unfold getMagnitude; cbn; split; intros H;
      try lia; try discriminate; reflexivity.
  - split_point p; unfold getMagnitude; cbn; split; intros H;
      try lia; try (destruct H; discriminate); eauto.
  - destruct p0 as [|x0 p0]; split_point p1; unfold distance, getMagnitude; cbn;
      split; intros H; try lia; try discriminate; reflexivity.
  - destruct p0 as [|x0 p0]; split_point p1; unfold distance, getMagnitude; cbn;
      split; intros H; try lia; try (destruct H; discriminate); eauto.
  - apply getMagnitude_xy.
  - apply distance_xy.
Qed.

Lemma calcCoefficients_Ok_iff (alpha tension : F) (p0 p1 p2 p3 : Point F) :
  (exists s, calcCoefficients alpha tension p0 p1 p2 p3 = Ok s)
  <-> has2 p0 /\ has2 p1 /\ has2 p2 /\ has2 p3.
Proof.
  unfold has2. split.
  - intros [s Hs].
    split_point p0; split_point p1; split_point p2; split_point p3;
      try discriminate Hs; cbn [length]; repeat split; lia.
  - intros (H0 & H1 & H2 & H3).
    split_point p0; cbn [length] in H0; try lia.
    split_point p1; cbn [length] in H1; try lia.
    split_point p2; cbn [length] in H2; try lia.
    split_point p3; cbn [length] in H3; try lia.
    eexists. reflexivity.
Qed.

Lemma calcCoefficients_halts (alpha tension : F) (p0 p1 p2 p3 : Point F) :
  halts (calcCoefficients alpha tension p0 p1 p2 p3).
Proof.
  unfold halts, calcCoefficients, distance, getMagnitude, at_.
  repeat match goal with
  | |- context [nth_error ?l ?i] => destruct (nth_error l i); cbn [bind]
  end; discriminate.
Qed.

(** X2.  [calcCoefficients] returns a segment exactly when each of the four
    points has at least two elements, and throws [std::out_of_range]
    otherwise.  The segment has four two-element vectors, its [d] is the
    [x, y] of [p1], and elements past the second of any point change
    nothing. *)
Theorem calcCoefficients_bounds (alpha tension : F) (p0 p1 p2 p3 : Point F) :
  ((exists s, calcCoefficients alpha tension p0 p1 p2 p3 = Ok s)
   <-> has2 p0 /\ has2 p1 /\ has2 p2 /\ has2 p3)
  /\ (calcCoefficients alpha tension p0 p1 p2 p3 = Throw out_of_range
      <-> ~ (has2 p0 /\ has2 p1 /\ has2 p2 /\ has2 p3))
  /\ (forall s, calcCoefficients alpha tension p0 p1 p2 p3 = Ok s ->
        wfSegment s /\ d s = xy p1)
  /\ calcCoefficients alpha tension (xy p0) (xy p1) (xy p2) (xy p3)
     = calcCoefficients alpha tension p0 p1 p2 p3.
Proof.
  pose proof (calcCoefficients_Ok_iff alpha tension p0 p1 p2 p3) as Hiff.
  pose proof (calcCoefficients_halts alpha tension p0 p1 p2 p3) as Hh.
  split; [exact Hiff|]. split; [|split; [|apply calcCoefficients_xy]].
  - destruct (calcCoefficients alpha tension p0 p1 p2 p3) as [s|[]|] eqn:E.
    + split; [discriminate|]. intros Hn. exfalso. apply Hn, Hiff. now exists s.
    + split; [|reflexivity]. intros _ Hn. apply Hiff in Hn.
      destruct Hn; discriminate.
    + now contradiction Hh.
  - intros s Hs.
    assert (H2 : has2 p0 /\ has2 p1 /\ has2 p2 /\ has2 p3)
      by (apply Hiff; now exists s).
    destruct H2 as (H0 & H1 & H2 & H3).
    rewrite <- calcCoefficients_xy in Hs.
    destruct (calcCoefficients_2D alpha tension (xy p0) (xy p1) (xy p2) (xy p3))
      as (s' & Hs' & Hwf & Hd); try now apply xy_2D.
    rewrite Hs in Hs'. injection Hs' as <-. now split.
Qed.

Lemma getPoint_xyPath (path : Path F) (i : nat) :
  getPoint (xyPath path) i = rmap xy (getPoint path i).
Proof. unfold getPoint, xyPath. cbn [points]. apply at_map. Qed.

Lemma injectControls_xy (path : Path F) :
  injectControls (xyPath path) = rmap xyPath (injectControls path).
Proof.
  unfold injectControls.
  rewrite !getPoint_xyPath, rmap_bind, bind_rmap.
  apply bind_ext. intros firstPoint _.
  rewrite rmap_bind, bind_rmap. apply bind_ext. intros second _.
  rewrite !at_xy by lia.
  repeat (rewrite rmap_bind; apply bind_ext; intros ? _).
  set (startingControl := [_; _]).
  change (mkPath (startingControl :: points (xyPath path)))
    with (xyPath (mkPath (startingControl :: points path))).
  set (path1 := mkPath (startingControl :: points path)).
  replace (length (points (xyPath path1))) with (length (points path1))
    by (unfold xyPath; cbn [points]; now rewrite length_map).
  rewrite !getPoint_xyPath.
  rewrite rmap_bind, bind_rmap. apply bind_ext. intros lastPoint _.
  rewrite !at_xy by lia.
  rewrite rmap_bind. apply bind_ext. intros lx _.
  rewrite rmap_bind, bind_rmap. apply bind_ext. intros prev _.
  rewrite !at_xy by lia.
  rewrite rmap_bind. apply bind_ext. intros px _.
  rewrite rmap_bind. apply bind_ext. intros ly _.
  rewrite rmap_bind, bind_rmap. apply bind_ext. intros prev' _.
  rewrite !at_xy by lia.
  repeat (rewrite rmap_bind; apply bind_ext; intros ? _).
  cbn [rmap]. unfold xyPath. cbn [points]. now rewrite map_app.
Qed.

Lemma buildSegments_xy (path : Path F) (indices : list nat)
  (segments : list (Segment F)) :
  buildSegments (xyPath path) indices segments
  = buildSegments path indices segments.
Proof.
  revert segments. induction indices as [|i indices IH]; intros segments;
    [reflexivity|].
  cbn [buildSegments]. rewrite !getPoint_xyPath.
  rewrite bind_rmap. apply bind_ext. intros p0 _.
  rewrite bind_rmap. apply bind_ext. intros p1 _.
  rewrite bind_rmap. apply bind_ext. intros p2 _.
  rewrite bind_rmap. apply bind_ext. intros p3 _.
  rewrite calcCoefficients_xy. apply bind_ext. intros segment _. apply IH.
Qed.

(** X3.  [generateSmoothPath] reads the first two elements of every waypoint
    and nothing else: the run on a path is the run on the path with every point
    cut down to its [x, y], with the same result or the same exception. *)
Theorem generateSmoothPath_reads_xy (fuel : nat) (path : Path F) :
  generateSmoothPath fuel path
  = generateSmoothPath fuel (mkPath (map xy (points path))).
Proof.
  change (mkPath (map xy (points path))) with (xyPath path).
  unfold generateSmoothPath. rewrite injectControls_xy, bind_rmap.
  apply bind_ext. intros ctrl _.
  rewrite buildSegments_xy. unfold xyPath at 1. cbn [points].
  now rewrite length_map.
Qed.

Ltac halts_step :=
  first [ apply at_halts | apply calcCoefficients_halts | discriminate
        | apply bind_halts; [|intros ? _] ].

Lemma injectControls_halts (path : Path F) : halts (injectControls path).
Proof. unfold injectControls, getPoint. repeat halts_step. Qed.

Lemma buildSegments_halts (path : Path F) (indices : list nat)
  (segments : list (Segment F)) :
  halts (buildSegments path indices segments).
Proof.
  revert segments. induction indices as [|i indices IH]; intros segments;
    cbn [buildSegments]; [discriminate|].
  unfold getPoint. repeat halts_step. apply IH.
Qed.

Lemma cubicAt_halts (s : Segment F) (k : nat) (t : F) : halts (cubicAt s k t).
Proof. unfold cubicAt. repeat halts_step. Qed.

(** The sampling loop runs to its end whenever the fuel covers the values of
    [t] it visits, whatever the segment is. *)
Lemma sampleSegment_halts (fuel : nat) (s : Segment F) :
  forall (t : F) (ts : list F) (smoothedPath : Path F),
  loopParams fuel t = Some ts -> halts (sampleSegment fuel s t smoothedPath).
Proof.
  induction fuel as [|fuel IH]; intros t ts sp Hts; [discriminate|].
  cbn [loopParams sampleSegment] in *.
  destruct (fleb t (lit 1)); [|discriminate].
  destruct (loopParams fuel (fadd t tenth)) as [ts'|] eqn:E; [|discriminate].
  apply bind_halts; [apply cubicAt_halts|intros xVal _].
  apply bind_halts; [apply cubicAt_halts|intros yVal _].
  apply (IH _ _ _ E).
Qed.

Lemma sampleSegments_halts (fuel : nat) (ts : list F)
  (segments : list (Segment F)) :
  loopParams fuel tenth = Some ts ->
  forall (rest : list (Segment F)) (z : nat) (smoothedPath : Path F),
  halts (sampleSegments fuel segments z rest smoothedPath).
Proof.
  intros Hts. induction rest as [|s rest IH]; intros z sp;
    cbn [sampleSegments]; [discriminate|].
  apply bind_halts.
  - destruct (Nat.eqb z 0); repeat halts_step.
  - intros sp1 _. apply bind_halts; [|intros sp2 _; apply IH].
    apply (sampleSegment_halts fuel s _ _ _ Hts).
Qed.

Lemma generateSmoothPath_halts (fuel : nat) (ts : list F) (path : Path F) :
  loopParams fuel tenth = Some ts -> halts (generateSmoothPath fuel path).
Proof.
  intros Hts. unfold generateSmoothPath.
  apply bind_halts; [apply injectControls_halts|intros ctrl _].
  apply bind_halts; [apply buildSegments_halts|intros segs _].
  apply (sampleSegments_halts fuel ts segs Hts).
Qed.

Ltac bind_inv H :=
  let x := fresh "v" in let E := fresh "E" in
  apply bind_Ok_inv in H; destruct H as (x & E & H).

Lemma injectControls_Ok_inv (path ctrl : Path F) :
  injectControls path = Ok ctrl ->
  2 <= length (points path)
  /\ exists s e, points ctrl = s :: points path ++ [e].
Proof.
  unfold injectControls. intros H.
  bind_inv H. bind_inv H.
  apply at_Ok_lt in E0. destruct E0 as [Hlt _].
  split; [exact Hlt|].
  repeat bind_inv H. injection H as <-. cbn [points]. eauto.
Qed.

Lemma buildSegments_Ok_inv (path : Path F) (indices : list nat) :
  forall segments r,
  buildSegments path indices segments = Ok r ->
  forall i, In i indices ->
  forall k, k <= 3 ->
  exists p, nth_error (points path) (i + k) = Some p /\ has2 p.
Proof.
  induction indices as [|i0 indices IH]; intros segments r H i Hin k Hk;
    [contradiction|].
  cbn [buildSegments] in H.
  bind_inv H. bind_inv H. bind_inv H. bind_inv H. bind_inv H.
  destruct Hin as [<-|Hin]; [|now apply (IH _ _ H i Hin k Hk)].
  assert (Hs : exists s, calcCoefficients three_quarters (lit 0) v v0 v1 v2 = Ok s)
    by eauto.
  apply calcCoefficients_Ok_iff in Hs. destruct Hs as (H0 & H1 & H2 & H3).
  unfold getPoint in *.
  apply at_Ok_lt in E, E0, E1, E2.
  destruct E as [_ E], E0 as [_ E0], E1 as [_ E1], E2 as [_ E2].
  destruct k as [|[|[|[|k]]]]; try lia.
  - rewrite Nat.add_0_r. eauto.
  - eauto.
  - eauto.
  - eauto.
Qed.

Lemma generateSmoothPath_Ok_inv (fuel : nat) (path out : Path F) :
  generateSmoothPath fuel path = Ok out ->
  2 <= length (points path) /\ Forall has2 (points path).
Proof.
  unfold generateSmoothPath. intros H. bind_inv H. bind_inv H.
  destruct (injectControls_Ok_inv _ _ E) as (Hn & s & e & Hc).
  split; [exact Hn|].
  apply Forall_forall. intros p Hp.
  apply In_nth_error in Hp. destruct Hp as [j Hj].
  assert (Hjlt : j < length (points path))
    by (apply nth_error_Some; congruence).
  assert (Hlen : length (points v) = length (points path) + 2)
    by (rewrite Hc; cbn [length]; rewrite length_app; simpl; lia).
  assert (Hin : In (Nat.min j (length (points path) - 2))
                  (seq 0 (length (points v) - 3)))
    by (apply in_seq; lia).
  destruct (buildSegments_Ok_inv _ _ _ _ E0 _ Hin
              (S j - Nat.min j (length (points path) - 2)))
    as (q & Hq & Hq2); [lia|].
  replace (Nat.min j (length (points path) - 2)
           + (S j - Nat.min j (length (points path) - 2))) with (S j) in Hq by lia.
  rewrite Hc in Hq. cbn [nth_error] in Hq.
  rewrite nth_error_app1 in Hq by exact Hjlt. congruence.
Qed.

(** The run on waypoints of at least two elements each. *)
Lemma generateSmoothPath_has2 (fuel : nat) (ts : list F) (path : Path F) :
  loopParams fuel tenth = Some ts ->
  2 <= length (points path) -> Forall has2 (points path) ->
  exists segs,
    length segs = length (points path) - 1
    /\ generateSmoothPath fuel path
       = Ok (mkPath (xy (nth 0 (points path) []) :: samples ts segs)).
Proof.
  intros Hts Hn Hw. rewrite generateSmoothPath_reads_xy.
  destruct (generateSmoothPath_ok fuel ts (mkPath (map xy (points path))) Hts)
    as (segs & Hwin & _ & Hrun).
  - cbn [points]. now rewrite length_map.
  - cbn [points]. apply Forall_map. revert Hw. apply Forall_impl.
    intros p. apply xy_2D.
  - cbn [points] in *. rewrite length_map in Hwin.
    exists segs. split; [now apply windows_length in Hwin|].
    rewrite Hrun. do 3 f_equal.
    change (@nil F) with (xy (@nil F)). apply map_nth.
Qed.

Lemma samples_2D (ts : list F) (segs : list (Segment F)) :
  Forall is2D (samples ts segs).
Proof.
  unfold samples. apply Forall_forall. intros p Hp.
  apply in_flat_map in Hp. destruct Hp as (s & _ & Hp).
  apply in_map_iff in Hp. destruct Hp as (t & <- & _). reflexivity.
Qed.

End Bounds.

Lemma calcCoefficients_bounds_witness :
  exists s,
    calcCoefficients (AF := Binary64 pow_special) 0.75%float 0%float
      [0; 0; 9]%float [1; 1; 9]%float [2; 0.1]%float [3; 0]%float = Ok s.
Proof.
  apply (proj2 (proj1 (calcCoefficients_bounds (AF := Binary64 pow_special)
                         0.75%float 0%float
                         [0; 0; 9]%float [1; 1; 9]%float [2; 0.1]%float
                         [3; 0]%float)));
    unfold has2; simpl; lia.
Defined.


(** ** Beyond the claims: the outcome of a run in binary64 *)

(** X4.  In binary64, for every [pow], a run of [generateSmoothPath] always
    ends: it returns a path exactly when there are at least two waypoints and
    each has at least two elements, and throws [std::out_of_range] otherwise.
    A returned path has [1 + 10*(N-1)] points of exactly two coordinates each,
    the first being the [x, y] of the first waypoint. *)
Theorem generateSmoothPath_outcome (pow : float -> float -> float) (fuel : nat)
  (path : Path float) :
  11 <= fuel ->
  ((exists out, generateSmoothPath (AF := Binary64 pow) fuel path = Ok out)
   <-> 2 <= length (points path) /\ Forall has2 (points path))
  /\ (generateSmoothPath (AF := Binary64 pow) fuel path = Throw out_of_range
      <-> ~ (2 <= length (points path) /\ Forall has2 (points path)))
  /\ (forall out, generateSmoothPath (AF := Binary64 pow) fuel path = Ok out ->
        length (points out) = 1 + 10 * (length (points path) - 1)
        /\ Forall is2D (points out)
        /\ nth_error (points out) 0 = Some (xy (nth 0 (points path) []))).
Proof.
  intros Hf.
  pose proof (loopParams64_ge pow fuel Hf) as Hts.
  pose proof (generateSmoothPath_halts (AF := Binary64 pow) fuel ts64 path Hts)
    as Hh.
  assert (Hok : 2 <= length (points path) /\ Forall has2 (points path) ->
          exists segs,
            length segs = length (points path) - 1
            /\ generateSmoothPath (AF := Binary64 pow) fuel path
               = Ok (mkPath (xy (nth 0 (points path) [])
                             :: samples (AF := Binary64 pow) ts64 segs))).
  { intros [Hn Hw].
    exact (generateSmoothPath_has2 (AF := Binary64 pow) fuel ts64 path Hts Hn Hw). }
  assert (Hiff : (exists out, generateSmoothPath (AF := Binary64 pow) fuel path = Ok out)
                 <-> 2 <= length (points path) /\ Forall has2 (points path)).
  { split.
    - intros [out Hout].
      exact (generateSmoothPath_Ok_inv (AF := Binary64 pow) fuel path out Hout).
    - intros H. destruct (Hok H) as (segs & _ & Hrun). eauto. }
  split; [exact Hiff|]. split.
  - destruct (generateSmoothPath (AF := Binary64 pow) fuel path)
      as [out|[]|] eqn:E.
    + split; [discriminate|]. intros Hn. exfalso. apply Hn, Hiff. eauto.
    + split; [|reflexivity]. intros _ Hn. apply Hiff in Hn.
      destruct Hn; discriminate.
    + now contradiction Hh.
  - intros out Hout.
    assert (H : 2 <= length (points path) /\ Forall has2 (points path))
      by (apply Hiff; eauto).
    destruct (Hok H) as (segs & Hlen & Hrun).
    rewrite Hrun in Hout. injection Hout as <-. cbn [points].
    split; [|split; [|reflexivity]].
    + cbn [length]. rewrite samples_length, Hlen. reflexivity.
    + constructor; [|apply samples_2D]. apply xy_2D.
      destruct H as [Hn Hw]. rewrite Forall_forall in Hw.
      apply Hw, nth_In. lia.
Qed.

Lemma generateSmoothPath_outcome_witness :
  exists out,
    generateSmoothPath (AF := Binary64 pow_special) 11
      (mkPath [[0; 0; 5]; [1; 1; 5]; [2; 0; 5]]%float) = Ok out.
Proof.
  apply (proj2 (proj1 (generateSmoothPath_outcome pow_special 11
                         (mkPath [[0; 0; 5]; [1; 1; 5]; [2; 0; 5]]%float)
                         ltac:(lia)))).
  split; [simpl; lia|]. repeat constructor; unfold has2; simpl; lia.
Defined.

(** ** Beyond the claims: local control *)

Section LocalControl.

Context {F : Type} {AF : Arith F}.

Lemma extrapolated_last (w : list (Point F)) :
  nth (S (length w)) (extrapolated w) [] = finalControl w.
Proof.
  unfold extrapolated. cbn [nth]. rewrite app_nth2 by lia.
  now rewrite Nat.sub_diag.
Qed.

(** The control points of window [i] are fixed by the waypoints [i-1] to
    [i+2]. *)
Lemma extrapolated_agree (w w' : list (Point F)) (i m : nat) :
  2 <= length w -> length w' = length w -> i + 3 < length w + 2 ->
  (forall k, i <= S k -> k <= i + 2 -> nth k w [] = nth k w' []) ->
  i <= m <= i + 3 ->
  nth m (extrapolated w) [] = nth m (extrapolated w') [].
Proof.
  intros Hn Hl Hi Hag Hm.
  destruct m as [|k].
  - unfold extrapolated. cbn [nth]. unfold startControl.
    now rewrite (Hag 0), (Hag 1) by lia.
  - destruct (Nat.lt_ge_cases k (length w)) as [Hk|Hk].
    + rewrite !extrapolated_nth by lia. apply Hag; lia.
    + assert (k = length w) by lia. subst k.
      rewrite extrapolated_last. rewrite <- Hl at 1. rewrite extrapolated_last.
      unfold finalControl. rewrite Hl.
      now rewrite (Hag (length w - 1)), (Hag (length w - 2)) by lia.
Qed.

Lemma sample_index (ts : list F) (segs : list (Segment F)) (p0 : Point F)
  (i j : nat) (s0 : Segment F) (t0 : F) :
  length ts = 10 -> i < length segs -> 1 <= j <= 10 ->
  nth_error (p0 :: samples ts segs) (10 * i + j)
  = Some (samplePoint (nth i segs s0) (nth (j - 1) ts t0)).
Proof.
  intros Hts Hi Hj.
  replace (10 * i + j) with (S (length ts * i + (j - 1))) by lia.
  cbn [nth_error]. apply samples_nth; lia.
Qed.

Lemma local_control_generic (fuel : nat) (ts : list F) (path path' : Path F)
  (i : nat) :
  loopParams fuel tenth = Some ts -> length ts = 10 ->
  2 <= length (points path) -> length (points path') = length (points path) ->
  Forall is2D (points path) -> Forall is2D (points path') ->
  i < length (points path) - 1 ->
  (forall k, i <= S k -> k <= i + 2 ->
     nth k (points path) [] = nth k (points path') []) ->
  exists out out',
    generateSmoothPath fuel path = Ok out
    /\ generateSmoothPath fuel path' = Ok out'
    /\ forall j, 1 <= j <= 10 ->
         nth_error (points out) (10 * i + j)
         = nth_error (points out') (10 * i + j).
Proof.
  intros Hts Hlen Hn Hl Hw Hw' Hi Hag.
  destruct (generateSmoothPath_ok fuel ts path Hts Hn Hw)
    as (segs & Hwin & _ & Hrun).
  destruct (generateSmoothPath_ok fuel ts path' Hts ltac:(lia) Hw')
    as (segs' & Hwin' & _ & Hrun').
  do 2 eexists. split; [exact Hrun|]. split; [exact Hrun'|].
  intros j Hj. cbn [points].
  pose proof (windows_length _ _ _ Hwin) as Hs.
  pose proof (windows_length _ _ _ Hwin') as Hs'.
  rewrite (sample_index ts segs _ i j (mkSegment [] [] [] []) tenth)
    by (auto; lia).
  rewrite (sample_index ts segs' _ i j (mkSegment [] [] [] []) tenth)
    by (auto; lia).
  do 2 f_equal.
  pose proof (windows_nth _ _ _ i (mkSegment [] [] [] []) Hwin Hi) as H1.
  rewrite Hl in Hwin'.
  pose proof (windows_nth _ _ _ i (mkSegment [] [] [] []) Hwin' Hi) as H2.
  unfold window in H1, H2.
  rewrite <- !(extrapolated_agree (points path) (points path') i) in H2
    by (auto; lia).
  rewrite H1 in H2. now injection H2.
Qed.

End LocalControl.

(** X5.  Local control, in binary64 for every [pow]: the ten samples of
    segment [i] (output points [10*i + 1] to [10*i + 10]) depend on the
    waypoints [i-1], [i], [i+1] and [i+2] only.  Two paths of the same length
    that agree on these waypoints get the same ten points. *)
Theorem local_control (pow : float -> float -> float) (fuel : nat)
  (path path' : Path float) (i : nat) :
  11 <= fuel ->
  2 <= length (points path) -> length (points path') = length (points path) ->
  Forall is2D (points path) -> Forall is2D (points path') ->
  i < length (points path) - 1 ->
  (forall k, i <= S k -> k <= i + 2 ->
     nth k (points path) [] = nth k (points path') []) ->
  exists out out',
    generateSmoothPath (AF := Binary64 pow) fuel path = Ok out
    /\ generateSmoothPath (AF := Binary64 pow) fuel path' = Ok out'
    /\ forall j, 1 <= j <= 10 ->
         nth_error (points out) (10 * i + j)
         = nth_error (points out') (10 * i + j).
Proof.
  intros Hf. apply (local_control_generic (AF := Binary64 pow) fuel ts64).
  - apply loopParams64_ge, Hf.
  - reflexivity.
Qed.

Lemma local_control_witness :
  exists out out',
    generateSmoothPath (AF := Binary64 pow_special) 11 mainPath = Ok out
    /\ generateSmoothPath (AF := Binary64 pow_special) 11
         (mkPath [ [10; 7]; [15; 10]; [20; 13]; [0; 0]; [30; 7]; [35; 8];
                   [40; 99] ]%float) = Ok out'
    /\ forall j, 1 <= j <= 10 ->
         nth_error (points out) (10 * 0 + j)
         = nth_error (points out') (10 * 0 + j).
Proof.
  apply (local_control pow_special 11 mainPath
           (mkPath [ [10; 7]; [15; 10]; [20; 13]; [0; 0]; [30; 7]; [35; 8];
                     [40; 99] ]%float) 0);
    [lia | simpl; lia | reflexivity | repeat constructor | repeat constructor
    | simpl; lia | ].
  intros k _ Hk. destruct k as [|[|[|k]]]; [reflexivity..|lia].
Defined.

(** ** Beyond the claims: a vertical first leg in binary64 *)

Lemma sub_zero_r (x : float) : (x - 0 = x)%float.
Proof.
  apply Prim2SF_inj. rewrite sub_spec.
  change (Prim2SF 0) with (S754_zero false).
  destruct (Prim2SF x) as [sg|sg| |sg m e]; try reflexivity.
  now destruct sg.
Qed.

(** X6.  In binary64, with a conforming [pow]: when the first two waypoints
    have the same finite x-coordinate, the injected starting control point has
    it too, the first knot spacing is zero, and the x-coordinate of each of
    the ten samples of the first segment is NaN. *)
Theorem vertical_first_leg (pow : float -> float -> float) (fuel : nat)
  (path : Path float) (x y0 y1 : float) :
  AnnexF pow -> 11 <= fuel -> Forall is2D (points path) ->
  nth_error (points path) 0 = Some [x; y0] ->
  nth_error (points path) 1 = Some [x; y1] ->
  is_finite x = true -> is_finite y0 = true ->
  exists out,
    generateSmoothPath (AF := Binary64 pow) fuel path = Ok out
    /\ forall j, 1 <= j <= 10 ->
         exists y, nth_error (points out) j = Some [nan; y].
Proof.
  intros Hpow Hf Hw H0 H1 Hx Hy.
  assert (Hn : 2 <= length (points path)).
  { assert (1 < length (points path)) by (apply nth_error_Some; congruence).
    lia. }
  destruct (generateSmoothPath64 pow fuel path Hf Hn Hw)
    as (segs & Hwin & _ & Hrun).
  unfold machine in Hwin, Hrun.
  eexists. split; [exact Hrun|]. intros j Hj. cbn [points].
  pose proof (windows_length _ _ _ Hwin) as Hlen.
  pose proof (windows_nth _ _ _ 0 (mkSegment [] [] [] []) Hwin ltac:(lia)) as Hs.
  change j with (10 * 0 + j) at 1.
  rewrite (sample_index (AF := Binary64 pow) ts64 segs _ 0 j
             (mkSegment [] [] [] []) 0%float) by (auto; lia).
  unfold window in Hs. cbn [Nat.add] in Hs.
  assert (E0 : nth 0 (points path) [] = [x; y0])
    by (now apply nth_error_nth).
  assert (E1 : nth 1 (points path) [] = [x; y1])
    by (now apply nth_error_nth).
  assert (Ec0 : nth 0 (extrapolated (AF := Binary64 pow) (points path)) []
                = [x; (y0 - (y1 - y0))%float]).
  { unfold extrapolated. cbn [nth]. unfold startControl.
    rewrite E0, E1. cbn [coord nth fsub Binary64].
    now rewrite (sub_diag x Hx), sub_zero_r. }
  rewrite Ec0, (extrapolated_nth (AF := Binary64 pow) (points path) 0),
    (extrapolated_nth (AF := Binary64 pow) (points path) 1), E0, E1 in Hs
    by lia.
  destruct (calcCoefficients_same_x pow Hpow 0.75%float 0%float x
              (y0 - (y1 - y0))%float y0 [x; y1]
              (nth 3 (extrapolated (AF := Binary64 pow) (points path)) []))
    as (s & Hs' & _ & Ha & Hb & Hc); auto.
  { reflexivity. }
  { apply is2D_inv_nth; [now apply extrapolated_2D|].
    rewrite extrapolated_length. lia. }
  unfold machine in Hs', Ha, Hb, Hc.
  assert (Es : nth 0 segs (mkSegment [] [] [] []) = s).
  { cut (Ok (nth 0 segs (mkSegment [] [] [] [])) = Ok s); [now intros [= ->]|].
    rewrite <- Hs, <- Hs'. reflexivity. }
  rewrite Es. unfold samplePoint at 1.
  eexists. do 2 f_equal.
  unfold cubic. rewrite Ha, Hb, Hc. cbn [fadd fmul Binary64].
  now autorewrite with nan.
Qed.

Lemma vertical_first_leg_witness :
  exists out,
    generateSmoothPath (AF := Binary64 pow_special) 11
      (mkPath [[10; 7]; [10; 9]; [15; 10]]%float) = Ok out
    /\ forall j, 1 <= j <= 10 ->
         exists y, nth_error (points out) j = Some [nan; y].
Proof.
  apply (vertical_first_leg pow_special 11
           (mkPath [[10; 7]; [10; 9]; [15; 10]]%float) 10%float 7%float 9%float);
    [exact pow_special_AnnexF | lia | repeat constructor | reflexivity..].
Defined.

(** ** Beyond the claims: a vertical leg in binary64 *)

Section VerticalLeg.

Variable pow : float -> float -> float.
Hypothesis conforming : AnnexF pow.

Local Open Scope float_scope.

(** [p2] and [p3] share their x-coordinate: [t23] is zero, [0/0] is computed,
    and the x-coefficients [a] and [b] are NaN whatever [p0] and [p1] are. *)
Lemma calcCoefficients_same_x_tail (alpha tension x y2 y3 : float)
  (p0 p1 : Point float) :
  is_finite x = true -> is_finite y3 = true -> (0 <? alpha) = true ->
  is2D p0 -> is2D p1 ->
  exists s,
    calcCoefficients (AF := Binary64 pow) alpha tension p0 p1 [x; y2] [x; y3]
    = Ok s
    /\ coord (AF := Binary64 pow) (a s) 0 = nan
    /\ coord (AF := Binary64 pow) (b s) 0 = nan.
Proof.
  intros Hx Hy Ha H0 H1.
  destruct (is2D_inv _ H0) as (x0 & y0 & ->), (is2D_inv _ H1) as (x1 & y1 & ->).
  unfold calcCoefficients.
  pose proof (distance64_same_x pow conforming x y2 y3 Hx Hy) as Hd.
  unfold machine in Hd. rewrite Hd.
  cbn [distance getMagnitude at_ nth_error bind].
  eexists. split; [reflexivity|].
  cbn [a b c d coord nth fadd fsub fmul fdiv fsqrt fpow lit Binary64 lit64].
  rewrite (pow_zero_pos pow conforming alpha Ha), (sub_diag x Hx).
  change (0 / 0) with nan. autorewrite with nan. now split.
Qed.

(** X16.  In binary64, with a conforming [pow]: when two consecutive
    waypoints [i >= 1] and [i + 1] have the same finite x-coordinate, the knot
    spacing [t23] of the window before them is zero and the x-coordinate of
    each of the ten samples that lead up to waypoint [i] (output points
    [10*(i-1) + 1] to [10*i]) is NaN. *)
Theorem vertical_leg (fuel : nat) (path : Path float) (i : nat)
  (x y2 y3 : float) :
  11 <= fuel -> Forall is2D (points path) -> 1 <= i ->
  nth_error (points path) i = Some [x; y2] ->
  nth_error (points path) (i + 1) = Some [x; y3] ->
  is_finite x = true -> is_finite y3 = true ->
  exists out,
    generateSmoothPath (AF := Binary64 pow) fuel path = Ok out
    /\ forall j, 1 <= j <= 10 ->
         exists y, nth_error (points out) (10 * (i - 1) + j) = Some [nan; y].
Proof.
  intros Hf Hw Hi H2 H3 Hx Hy.
  assert (Hn : i + 1 < length (points path))
    by (apply nth_error_Some; congruence).
  destruct (generateSmoothPath64 pow fuel path Hf ltac:(lia) Hw)
    as (segs & Hwin & _ & Hrun).
  unfold machine in Hwin, Hrun.
  eexists. split; [exact Hrun|]. intros j Hj. cbn [points].
  pose proof (windows_length _ _ _ Hwin) as Hlen.
  assert (Hi1 : i - 1 < length (points path) - 1) by lia.
  pose proof (windows_nth _ _ _ (i - 1) (mkSegment [] [] [] []) Hwin Hi1) as Hs.
  rewrite (sample_index (AF := Binary64 pow) ts64 segs _ (i - 1) j
             (mkSegment [] [] [] []) 0) by (auto; lia).
  unfold window in Hs.
  replace (i - 1 + 2)%nat with (S i) in Hs by lia.
  replace (i - 1 + 3)%nat with (S (i + 1)) in Hs by lia.
  rewrite (extrapolated_nth (AF := Binary64 pow) (points path) i),
    (extrapolated_nth (AF := Binary64 pow) (points path) (i + 1)) in Hs by lia.
  assert (E2 : nth i (points path) [] = [x; y2]) by (now apply nth_error_nth).
  assert (E3 : nth (i + 1) (points path) [] = [x; y3])
    by (now apply nth_error_nth).
  rewrite E2, E3 in Hs.
  pose proof (extrapolated_2D (AF := Binary64 pow) _ Hw) as Hc.
  pose proof (extrapolated_length (AF := Binary64 pow) (points path)) as Hcl.
  destruct (calcCoefficients_same_x_tail 0.75 0 x y2 y3
              (nth (i - 1) (extrapolated (AF := Binary64 pow) (points path)) [])
              (nth (i - 1 + 1) (extrapolated (AF := Binary64 pow) (points path)) []))
    as (s & Hs' & Ha & Hb); auto.
  { apply is2D_inv_nth; [assumption|lia]. }
  { apply is2D_inv_nth; [assumption|lia]. }
  assert (Es : nth (i - 1) segs (mkSegment [] [] [] []) = s).
  { cut (Ok (nth (i - 1) segs (mkSegment [] [] [] [])) = Ok s);
      [now intros [= ->]|].
    rewrite <- Hs, <- Hs'. reflexivity. }
  rewrite Es. unfold samplePoint at 1.
  eexists. do 2 f_equal.
  unfold cubic. rewrite Ha, Hb. cbn [fadd fmul Binary64].
  now autorewrite with nan.
Qed.

End VerticalLeg.

Lemma vertical_leg_witness :
  exists out,
    generateSmoothPath (AF := Binary64 pow_special) 11
      (mkPath [[10; 7]; [15; 10]; [15; 13]; [20; 12]]%float) = Ok out
    /\ forall j, 1 <= j <= 10 ->
         exists y, nth_error (points out) (10 * (1 - 1) + j) = Some [nan; y].
Proof.
  apply (vertical_leg pow_special pow_special_AnnexF 11
           (mkPath [[10; 7]; [15; 10]; [15; 13]; [20; 12]]%float) 1
           15%float 10%float 13%float);
    [lia | repeat constructor | lia | reflexivity..].
Defined.

(** ** The interpolation claim in binary64 *)

Section Interpolation64.

Variable pow : float -> float -> float.
Hypothesis conforming : AnnexF pow.

Local Open Scope float_scope.

Ltac float_eval :=
  repeat first
    [ rewrite (pow_one_l pow conforming)
    | rewrite (pow_zero_pos pow conforming) by reflexivity
    | progress cbv ].


End Interpolation64.



